(** * Sparse structure-from-motion: the scene model and the geometric core

    A shallow embedding of [hw6/HW6 - Multiple View Geometry.py].

    Conventions of the embedding.
    - A float64 value is an element of an arbitrary real field [R]; sums,
      products and comparisons are the exact ones.  Concrete evaluations
      take [R := rat] on values (small integers) for which float64
      arithmetic is exact as well.
    - [np.linalg.svd], [np.linalg.norm], [cv2.projectPoints], the feature
      detector and the matcher are library calls: they are parameters of
      the definitions that use them.
    - A Python exception is a value of [exn]; a method of [MatchMaker] is a
      function from the object's state to a result and the state reached.
    - A NumPy array of keypoint indices (dtype int32) is a [seq int]; the
      sentinel is [-1]. *)

From HB Require Import structures.
From mathcomp Require Import boot order algebra.
From Stdlib Require Import Lia.

Set Implicit Arguments.
Unset Strict Implicit.
Unset Printing Implicit Defensive.

Import GRing.Theory Num.Theory Order.TTheory.

(* ===================================================================== *)
(** * Part I: definitions                                                 *)
(* ===================================================================== *)

(** ** Exceptions and results *)

Inductive exn : Type := TypeError | ValueError | IndexError | KeyError.

Inductive result (A : Type) : Type :=
| Ok (a : A)
| Raise (e : exn).

Arguments Raise {A} e.

Definition rbind A B (r : result A) (f : A -> result B) : result B :=
  match r with
  | Ok a => f a
  | Raise e => Raise e
  end.

Definition is_ok A (r : result A) : bool :=
  if r is Ok _ then true else false.

Fixpoint rmap A B (f : A -> result B) (s : seq A) : result (seq B) :=
  match s with
  | [::] => Ok [::]
  | x :: s' =>
      rbind (f x) (fun y => rbind (rmap f s') (fun ys => Ok (y :: ys)))
  end.

(** ** The NumPy operations the source relies on *)

Module Np.
Section Arrays.
Variable T : Type.

(** An integer index into an axis of length [n]: a negative index counts
    from the end, anything outside [-n, n) raises IndexError. *)
Definition norm_index (n : nat) (i : int) : result nat :=
  match i with
  | Posz k => if k < n then Ok k else Raise IndexError
  | Negz k => if k < n then Ok (n - k.+1) else Raise IndexError
  end.

(** [a[i]] for an integer [i]. *)
Definition item (a : seq T) (i : int) : result T :=
  rbind (norm_index (size a) i)
        (fun k => if onth a k is Some x then Ok x else Raise IndexError).

(** [a[k]] for a non-negative Python int. *)
Definition item_nat (a : seq T) (k : nat) : result T := item a (Posz k).

(** [a[idx]] for an integer array [idx] (fancy indexing). *)
Definition take_idx (a : seq T) (idx : seq int) : result (seq T) :=
  rmap (item a) idx.

(** [a[m]] for a boolean array [m]: the lengths must agree. *)
Definition bmask (m : seq bool) (a : seq T) : result (seq T) :=
  if size m == size a then Ok (mask m a) else Raise IndexError.

(** [a[k] = v] for a non-negative Python int [k]. *)
Definition setitem (a : seq T) (k : nat) (v : T) : result (seq T) :=
  if k < size a then Ok (take k a ++ v :: drop k.+1 a) else Raise IndexError.

(** [a[lo:hi] = v] on a one-dimensional array.  The slice is clipped to the
    array; [v] must have the slice's length, or length one (it is then
    broadcast over the slice, also over an empty one); any other length
    raises ValueError.  The array's length never changes. *)
Definition slice_assign (a : seq T) (lo hi : nat) (v : seq T)
  : result (seq T) :=
  let lo' := minn lo (size a) in
  let hi' := maxn lo' (minn hi (size a)) in
  let len := hi' - lo' in
  if size v == len then Ok (take lo' a ++ v ++ drop hi' a)
  else if v is [:: x] then Ok (take lo' a ++ nseq len x ++ drop hi' a)
  else Raise ValueError.

End Arrays.
End Np.

(** ** A method of an object with state [S] *)

Definition St (S A : Type) : Type := S -> result A * S.

Definition ret S A (a : A) : St S A := fun s => (Ok a, s).
Definition raise S A (e : exn) : St S A := fun s => (Raise e, s).
Definition lift S A (r : result A) : St S A := fun s => (r, s).
Definition get S : St S S := fun s => (Ok s, s).
Definition modify S (f : S -> S) : St S unit := fun s => (Ok tt, f s).

Arguments ret {S A} a.
Arguments raise {S A} e.
Arguments lift {S A} r.
Arguments get {S}.

Definition bind S A B (c : St S A) (k : A -> St S B) : St S B :=
  fun s =>
    match c s with
    | (Ok a, s') => k a s'
    | (Raise e, s') => (Raise e, s')
    end.

Declare Scope st_scope.
Delimit Scope st_scope with st.
Notation "x <~ c ;; k" := (bind c (fun x => k))
  (at level 100, c at next level, right associativity) : st_scope.
Notation "c ;;; k" := (bind c (fun _ => k))
  (at level 100, right associativity) : st_scope.

(** [for x in xs: body x] *)
Fixpoint for_each S A (xs : seq A) (body : A -> St S unit) : St S unit :=
  match xs with
  | [::] => ret tt
  | x :: xs' => bind (body x) (fun _ => for_each xs' body)
  end.

(** ** The scene model: class MatchMaker *)

(** cv2.DMatch, the two fields the source reads. *)
Record DMatch : Type := mkDMatch { queryIdx : nat; trainIdx : nat }.

(** Columns of the visibility array, line 114. *)
Definition VIS_COLS : nat := 500.

Section Scene.

Variables (Image KeyPoint Point2 Point3 Pose : Type).
(** [kp.pt] *)
Variable pt : KeyPoint -> Point2.
(** keypoints of [detector.detectAndCompute] *)
Variable detect : Image -> seq KeyPoint.
(** [getMatchesFilterFundamental i j]: matcher and fundamental-matrix filter *)
Variable getMatchesFilterFundamental : nat -> nat -> seq DMatch.
(** an entry of [np.zeros((3, 4))] *)
Variable zero_pose : Pose.

Record MatchMaker : Type := mkMatchMaker {
  images : seq Image;
  kpts : seq (seq KeyPoint);
  matches : seq (nat * nat * seq DMatch);
  kpts_match_graph : option (seq (seq (seq int)));
  point3d_camera_visibility : option (seq (seq int));
  map_3d : option (seq Point3);
  poses : option (seq Pose)
}.

(** [MatchMaker()] *)
Definition init : MatchMaker :=
  mkMatchMaker [::] [::] [::] None None None None.

Definition set_images v (m : MatchMaker) : MatchMaker :=
  mkMatchMaker v (kpts m) (matches m) (kpts_match_graph m)
               (point3d_camera_visibility m) (map_3d m) (poses m).
Definition set_kpts v (m : MatchMaker) : MatchMaker :=
  mkMatchMaker (images m) v (matches m) (kpts_match_graph m)
               (point3d_camera_visibility m) (map_3d m) (poses m).
Definition set_matches v (m : MatchMaker) : MatchMaker :=
  mkMatchMaker (images m) (kpts m) v (kpts_match_graph m)
               (point3d_camera_visibility m) (map_3d m) (poses m).
Definition set_graph v (m : MatchMaker) : MatchMaker :=
  mkMatchMaker (images m) (kpts m) (matches m) v
               (point3d_camera_visibility m) (map_3d m) (poses m).
Definition set_visibility v (m : MatchMaker) : MatchMaker :=
  mkMatchMaker (images m) (kpts m) (matches m) (kpts_match_graph m)
               v (map_3d m) (poses m).
Definition set_map_3d v (m : MatchMaker) : MatchMaker :=
  mkMatchMaker (images m) (kpts m) (matches m) (kpts_match_graph m)
               (point3d_camera_visibility m) v (poses m).
Definition set_poses v (m : MatchMaker) : MatchMaker :=
  mkMatchMaker (images m) (kpts m) (matches m) (kpts_match_graph m)
               (point3d_camera_visibility m) (map_3d m) v.

Local Notation M := (St MatchMaker).
Local Open Scope st_scope.

(** An attribute that is still [None] cannot be indexed. *)
Definition attr A (o : option A) : result A :=
  if o is Some a then Ok a else Raise TypeError.

(** [self.matches[(i, j)]] *)
Definition dict_get (d : seq (nat * nat * seq DMatch)) (i j : nat)
  : result (seq DMatch) :=
  if [seq kv.2 | kv <- d & kv.1 == (i, j)] is ms :: _ then Ok ms
  else Raise KeyError.

(** [self.matches[(i, j)] = ms] *)
Definition dict_set (d : seq (nat * nat * seq DMatch)) (i j : nat)
    (ms : seq DMatch) : seq (nat * nat * seq DMatch) :=
  if has (fun kv => kv.1 == (i, j)) d
  then [seq if kv.1 == (i, j) then (i, j, ms) else kv | kv <- d]
  else rcons d (i, j, ms).

(** Lines 109-116. *)
Definition addImagesAndExtractKeypoints (imgs : seq Image) : M unit :=
  modify (set_images imgs) ;;;
  (* zip( *[...]) unpacked into two names needs at least one image *)
  (if imgs is [::] then raise ValueError else ret tt) ;;;
  modify (set_kpts [seq detect img | img <- imgs]) ;;;
  modify (set_visibility
            (Some (nseq (size imgs) (nseq VIS_COLS (-1)%R)))) ;;;
  modify (set_poses (Some (nseq (size imgs) zero_pose))).

(** [self.kpts_match_graph[i, j, k] = v] *)
Definition graph_set (i j k : nat) (v : int) : M unit :=
  mm <~ get ;;
  g <~ lift (attr (kpts_match_graph mm)) ;;
  gi <~ lift (Np.item_nat g i) ;;
  gij <~ lift (Np.item_nat gi j) ;;
  gij' <~ lift (Np.setitem gij k v) ;;
  gi' <~ lift (Np.setitem gi j gij') ;;
  g' <~ lift (Np.setitem g i gi') ;;
  modify (set_graph (Some g')).

(** Lines 118-134.  [product(range(n), repeat=2)] in its order. *)
Definition buildMatchGraph : M unit :=
  modify (set_matches [::]) ;;;
  mm <~ get ;;
  let n := size (images mm) in
  (* np.max of an empty list raises *)
  (if kpts mm is [::] then raise ValueError else ret tt) ;;;
  let depth := foldr maxn 0 [seq size k | k <- kpts mm] in
  modify (set_graph (Some (nseq n (nseq n (nseq depth (-1)%R))))) ;;;
  for_each [seq (i, j) | i <- iota 0 n, j <- iota 0 n]
    (fun ij =>
       let: (i, j) := ij in
       if i < j then
         let ms := getMatchesFilterFundamental i j in
         modify (fun m => set_matches (dict_set (matches m) i j ms) m) ;;;
         for_each ms (fun m =>
           graph_set i j (queryIdx m) (Posz (trainIdx m)) ;;;
           graph_set j i (trainIdx m) (Posz (queryIdx m)))
       else ret tt).

(** Lines 141-145. *)
Definition aligned2D (li rj : nat) : M (seq Point2 * seq Point2) :=
  mm <~ get ;;
  ms <~ lift (dict_get (matches mm) li rj) ;;
  kl <~ lift (Np.item_nat (kpts mm) li) ;;
  kr <~ lift (Np.item_nat (kpts mm) rj) ;;
  ps <~ lift (rmap (fun m =>
           rbind (Np.item_nat kl (queryIdx m)) (fun a =>
           rbind (Np.item_nat kr (trainIdx m)) (fun b =>
           Ok (pt a, pt b)))) ms) ;;
  (* zip( *[]) cannot be unpacked into two names *)
  if ps is [::] then raise ValueError
  else ret ([seq p.1 | p <- ps], [seq p.2 | p <- ps]).

(** Lines 158-161. *)
Definition alignedIndices (li rj : nat) : M (seq int * seq int) :=
  mm <~ get ;;
  ms <~ lift (dict_get (matches mm) li rj) ;;
  if ms is [::] then raise ValueError
  else ret ([seq Posz (queryIdx m) | m <- ms],
            [seq Posz (trainIdx m) | m <- ms]).

(** [self.point3d_camera_visibility[row, lo:hi] = v] *)
Definition visibility_set_slice (row lo hi : nat) (v : seq int) : M unit :=
  mm <~ get ;;
  vis <~ lift (attr (point3d_camera_visibility mm)) ;;
  r <~ lift (Np.item_nat vis row) ;;
  r' <~ lift (Np.slice_assign r lo hi v) ;;
  vis' <~ lift (Np.setitem vis row r') ;;
  modify (set_visibility (Some vis')).

(** Lines 163-174.  [mask=None] stands for the all-true mask. *)
Definition addNewPoints3D (pts3d : seq Point3) (li rj : nat)
    (mask : option (seq bool)) : M unit :=
  mm0 <~ get ;;
  (if map_3d mm0 is None then modify (set_map_3d (Some [::]))
   else ret tt) ;;;
  let mask := if mask is Some m then m else nseq (size pts3d) true in
  mm <~ get ;;
  map0 <~ lift (attr (map_3d mm)) ;;
  let mapIS := size map0 in
  sel <~ lift (Np.bmask mask pts3d) ;;
  let mapIE := mapIS + size sel in
  al <~ alignedIndices li rj ;;
  vl <~ lift (Np.bmask mask al.1) ;;
  visibility_set_slice li mapIS mapIE vl ;;;
  vr <~ lift (Np.bmask mask al.2) ;;
  visibility_set_slice rj mapIS mapIE vr ;;;
  modify (set_map_3d (Some (map0 ++ sel))).

(** Lines 184-193: a read-only method. *)
Definition alignedKptsTo3DMap (mm : MatchMaker) (li_3d rj_2d : nat)
  : result (seq KeyPoint * seq KeyPoint) :=
  rbind (attr (point3d_camera_visibility mm)) (fun vis =>
  rbind (Np.item_nat vis li_3d) (fun li_3d_idx =>
  rbind (attr (kpts_match_graph mm)) (fun g =>
  rbind (Np.item_nat g li_3d) (fun gl =>
  rbind (Np.item_nat gl rj_2d) (fun glr =>
  rbind (Np.take_idx glr li_3d_idx) (fun indices_rj =>
  rbind (Np.item_nat (kpts mm) rj_2d) (fun kr =>
  rbind (Np.take_idx kr [seq i <- indices_rj | (-1 < i)%R])
        (fun selected_rj_kpts =>
  rbind (Np.item_nat (kpts mm) li_3d) (fun kl =>
  rbind (Np.take_idx kl [seq i <- li_3d_idx | (-1 < i)%R])
        (fun selected_li_kpts =>
  Ok (selected_li_kpts, selected_rj_kpts))))))))))).

(** [mm.poses[i] = p] *)
Definition set_pose (i : nat) (p : Pose) : M unit :=
  mm <~ get ;;
  ps <~ lift (attr (poses mm)) ;;
  ps' <~ lift (Np.setitem ps i p) ;;
  modify (set_poses (Some ps')).

End Scene.

(** ** Geometry primitives and the two-view pipeline *)

Section Geometry.

Variable R : realFieldType.
Local Open Scope ring_scope.

(** [np.linalg.svd(A)] with its default [full_matrices=True]: the triple
    [(U, S, VT)].  It returns for every shape, a matrix without rows
    included (NumPy 1.16 and later). *)
Variable svd :
  forall m n : nat, 'M[R]_(m, n) -> 'M[R]_m * 'rV[R]_(minn m n) * 'M[R]_n.

Definition svd_U m n (A : 'M[R]_(m, n)) : 'M[R]_m := (svd A).1.1.
Definition svd_VT m n (A : 'M[R]_(m, n)) : 'M[R]_n := (svd A).2.

(** Row and column indices of a matrix with three rows. *)
Definition r0 : 'I_3 := @Ordinal 3 0 isT.
Definition r1 : 'I_3 := @Ordinal 3 1 isT.
Definition r2 : 'I_3 := @Ordinal 3 2 isT.

(** [np.kron(a, b)] of two vectors of length 3. *)
Definition kron (a b : 'rV[R]_3) : 'rV[R]_9 :=
  \row_(k < 9) (a 0 (inord (k %/ 3)%N) * b 0 (inord (k %% 3)%N)).

(** [v.reshape((3, 3))] *)
Definition reshape33 (v : 'rV[R]_9) : 'M[R]_3 :=
  \matrix_(i < 3, j < 3) v 0 (inord (3 * i + j)%N).

(** [np.diag([1, 1, 0])] *)
Definition Sigma : 'M[R]_3 :=
  diag_mx (\row_(j < 3) nth 0 [:: 1; 1; 0] j).

(** Lines 371-373: the rows of [A]. *)
Definition constraint_matrix (ptsLeftHomog ptsRightHomog : seq 'rV[R]_3)
  : 'M[R]_(size ptsLeftHomog, 9) :=
  \matrix_(i < size ptsLeftHomog)
     kron (nth 0 ptsRightHomog i) (nth 0 ptsLeftHomog i).

(** Lines 362-386.  [ptsRightHomog[i]] is read for every row of
    [ptsLeftHomog]. *)
Definition calculateEssentialMatrix (ptsLeftHomog ptsRightHomog : seq 'rV[R]_3)
  : result 'M[R]_3 :=
  if (size ptsLeftHomog <= size ptsRightHomog)%N then
    let A := constraint_matrix ptsLeftHomog ptsRightHomog in
    let V := svd_VT A in
    let E := reshape33 (row ord_max V) in
    let U := svd_U E in
    let VT := svd_VT E in
    Ok (U *m (Sigma *m VT))
  else Raise IndexError.

(** *** The RANSAC loop for the essential matrix, lines 405-454 *)

Record ransac_state : Type := mkRansac {
  maxv : nat;
  best_inliers : option (seq bool);
  best_E : option 'M[R]_3;
  error : option R
}.

Definition ransac_init : ransac_state := mkRansac 0 None None None.

(** Lines 429-430 and 446-447: [|x_r^T E x_l|] for every correspondence. *)
Definition epipolar_distance (E : 'M[R]_3) (mptsL mptsR : seq 'rV[R]_3)
  : result (seq R) :=
  if (size mptsL <= size mptsR)%N then
    Ok [seq `| (nth 0 mptsR i *m (E *m (nth 0 mptsL i)^T)) 0 0 |
       | i <- iota 0 (size mptsL)]
  else Raise IndexError.

(** [d < 0.0002] *)
Definition inlier_mask (d : seq R) : seq bool :=
  [seq x < 2%:R / 10000%:R | x <- d].

(** [np.mean] *)
Definition mean (xs : seq R) : R := (\sum_(x <- xs) x) / (size xs)%:R.

(** One pass through the body of the loop; [idx] is the draw of
    [np.random.choice(N, size=9, replace=False)], which raises when
    [N < 9]. *)
Definition ransac_iter (mpts01f mpts10f : seq 'rV[R]_3) (idx : seq nat)
    (st : ransac_state) : result ransac_state :=
  if (size mpts01f < 9)%N then Raise ValueError else
  rbind (Np.take_idx mpts01f [seq Posz i | i <- idx]) (fun pts_left =>
  rbind (Np.take_idx mpts10f [seq Posz i | i <- idx]) (fun pts_right =>
  rbind (calculateEssentialMatrix pts_left pts_right) (fun E_guess =>
  rbind (epipolar_distance E_guess mpts01f mpts10f) (fun d =>
  let inliers := inlier_mask d in
  rbind (Np.bmask inliers mpts01f) (fun inlier_pts_left =>
  rbind (Np.bmask inliers mpts10f) (fun inlier_pts_right =>
  rbind (calculateEssentialMatrix inlier_pts_left inlier_pts_right)
        (fun E_inliers =>
  let score := count id inliers in
  if (maxv st < score)%N then
    rbind (epipolar_distance E_inliers mpts01f mpts10f) (fun d1 =>
    rbind (Np.bmask inliers d1) (fun d1_best =>
    Ok (mkRansac score (Some inliers) (Some E_inliers)
                 (Some (mean d1_best)))))
  else Ok st))))))).

(** [for i in range(n)] with the draws [choice i], from iteration [i]. *)
Fixpoint ransac_loop (mpts01f mpts10f : seq 'rV[R]_3)
    (choice : nat -> seq nat) (n i : nat) (st : ransac_state)
  : result ransac_state :=
  match n with
  | 0%N => Ok st
  | n'.+1 =>
      rbind (ransac_iter mpts01f mpts10f (choice i) st)
            (ransac_loop mpts01f mpts10f choice n' i.+1)
  end.

Definition RANSAC_ITERATIONS : nat := 15000.

Definition essential_ransac (mpts01f mpts10f : seq 'rV[R]_3)
    (choice : nat -> seq nat) : result ransac_state :=
  ransac_loop mpts01f mpts10f choice RANSAC_ITERATIONS 0 ransac_init.

(** *** Decomposition of E, lines 561-585 *)

Definition W : 'M[R]_3 :=
  \matrix_(i < 3, j < 3)
     nth 0 (nth [::] [:: [:: 0; -1; 0]; [:: 1; 0; 0]; [:: 0; 0; 1]] i) j.

(** Lines 580-585: the loop over [rotations], with its [break]. *)
Fixpoint keep_rotations (rotations Rs : seq 'M[R]_3) : seq 'M[R]_3 :=
  match rotations with
  | [::] => Rs
  | Rm :: rest =>
      if size Rs == 2 then Rs
      else if 0 < \det Rm then keep_rotations rest (rcons Rs Rm)
      else keep_rotations rest Rs
  end.

Definition candidate_rotations (U VT : 'M[R]_3) : seq 'M[R]_3 :=
  [:: U *m W *m VT; U *m W^T *m VT; (- U) *m W *m VT; (- U) *m W^T *m VT].

Definition decompose_essential (E : 'M[R]_3) : seq 'M[R]_3 * 'cV[R]_3 :=
  let U := svd_U E in
  let VT := svd_VT E in
  let t := col ord_max U in
  (keep_rotations (candidate_rotations U VT) [::], t).

(** Line 731: the four solutions [(Rs[0],t), (Rs[0],-t), (Rs[1],t),
    (Rs[1],-t)] the disambiguation loop is to try. *)
Definition pose_hypotheses (Rs : seq 'M[R]_3) (t : 'cV[R]_3)
  : result (seq ('M[R]_3 * 'cV[R]_3)) :=
  rbind (Np.item_nat Rs 0) (fun Rs0 =>
  rbind (Np.item_nat Rs 1) (fun Rs1 =>
  Ok [:: (Rs0, t); (Rs0, - t); (Rs1, t); (Rs1, - t)])).

(** *** Triangulation, lines 681-717 *)

(** Lines 698-703: the matrix [A] of one pair of points. *)
Definition triangulation_system (P Rt : 'M[R]_(3, 4)) (pr pl : R * R)
  : 'M[R]_4 :=
  let: (x_r, y_r) := pr in
  let: (x_l, y_l) := pl in
  \matrix_(i < 4, j < 4)
     nth 0 [:: x_r * P r2 j - P r0 j;
               y_r * P r2 j - P r1 j;
               x_l * Rt r2 j - Rt r0 j;
               y_l * Rt r2 j - Rt r1 j] i.

(** Lines 706-712: last row of [VT], divided by its last entry. *)
Definition solve_homogeneous (A : 'M[R]_4) : 'rV[R]_3 :=
  let pt3D_homogeneous := row ord_max (svd_VT A) in
  \row_(j < 3) (pt3D_homogeneous 0 (widen_ord (leqnSn 3) j)
                / pt3D_homogeneous 0 ord_max).

Definition triangulatePoints (pts2Dr pts2Dl : seq (R * R))
    (Rm : 'M[R]_3) (t : 'cV[R]_3) (K_ : 'M[R]_3) : result (seq 'rV[R]_3) :=
  let Rt := row_mx Rm t in
  let P := K_ *m Rt in
  if (size pts2Dr <= size pts2Dl)%N then
    Ok [seq solve_homogeneous (triangulation_system P Rt prl.1 prl.2)
       | prl <- zip pts2Dr pts2Dl]
  else Raise IndexError.

End Geometry.

(** ** The two-view initializer, lines 350 and 766-784 *)

Section TwoView.

Variable R : realFieldType.
Local Open Scope ring_scope.

Variable svd :
  forall m n : nat, 'M[R]_(m, n) -> 'M[R]_m * 'rV[R]_(minn m n) * 'M[R]_n.

(** [cv2.projectPoints(pts, rvec, tvec, K, None)] on one point; the
    rotation is given as a matrix ([(0,0,0)] is the identity). *)
Variable projectPoints : 'M[R]_3 -> 'cV[R]_3 -> 'M[R]_3 -> 'rV[R]_3 -> R * R.

(** [np.linalg.norm] of a row of two floats. *)
Variable norm : R * R -> R.

Variables (Image KeyPoint : Type).
Variable pt : KeyPoint -> R * R.

Definition Scene : Type := MatchMaker Image KeyPoint 'rV[R]_3 'M[R]_(3, 4).

(** A row of [a - b] for arrays of shape (N, 2). *)
Definition sub2 (a b : R * R) : R * R := (a.1 - b.1, a.2 - b.2).

(** Lines 776-778. *)
Definition mask_reproj (projPts2dRight projPts2dLeft mpts10o mpts01o
    : seq (R * R)) : seq bool :=
  [seq (norm (sub2 q.1.1 q.1.2) < 5%:R) && (norm (sub2 q.2.1 q.2.2) < 5%:R)
  | q <- zip (zip projPts2dRight mpts10o) (zip projPts2dLeft mpts01o)].

(** The seed views of the script. *)
Definition SEED_LEFT : nat := 3.
Definition SEED_RIGHT : nat := 7.

(** Line 350, then lines 767-784.  The script stops at the first
    exception, so only the exception is kept. *)
Definition two_view_seed (R_best : 'M[R]_3) (t_best : 'cV[R]_3)
    (K : 'M[R]_3) (mm : Scene) : result Scene :=
  match aligned2D pt SEED_LEFT SEED_RIGHT mm with
  | (Raise e, _) => Raise e
  | (Ok (mpts01o, mpts10o), _) =>
    rbind (triangulatePoints svd mpts01o mpts10o R_best t_best K)
          (fun pts3d =>
    let projPts2dLeft := [seq projectPoints 1%:M 0 K p | p <- pts3d] in
    let projPts2dRight :=
      [seq projectPoints R_best t_best K p | p <- pts3d] in
    (* with one correspondence the mask of lines 776-778 is squeezed to
       zero dimensions; indexing with it adds an axis and the call on
       line 782 raises *)
    if size pts3d == 1%N then Raise ValueError else
    let m := mask_reproj projPts2dRight projPts2dLeft mpts10o mpts01o in
    match bind (addNewPoints3D pts3d SEED_LEFT SEED_RIGHT (Some m))
            (fun _ =>
          bind (set_pose SEED_LEFT (row_mx 1%:M 0))
            (fun _ => set_pose SEED_RIGHT (row_mx R_best t_best))) mm with
    | (Ok _, mm') => Ok mm'
    | (Raise e, _) => Raise e
    end)
  end.

End TwoView.

(** ** Bundle adjustment: the parameter vector and its bounds *)

Section BundleAdjustment.

Variable R : realFieldType.
Local Open Scope ring_scope.

(** A float that may be infinite. *)
Inductive bound : Type := NegInf | Finite (x : R) | PosInf.

(** Line 1151. *)
Definition params_size (n_cams n_pts : nat) : nat :=
  (n_cams * 6 + n_pts * 3 + 3)%N.

(** Modelled from the spec: [K_idx] is assigned in a part of the source
    that is left out; section 4.5 of the specification and the comment on
    line 1157 put the three intrinsics right after the six scalars of
    every camera. *)
Definition K_idx (n_cams : nat) : nat := (n_cams * 6)%N.

(** Lines 1254-1256; [img_w] and [img_h] are [mm.images[0].shape[1]] and
    [mm.images[0].shape[0]]. *)
Definition bounds (n_cams n_pts img_w img_h : nat)
  : result (seq bound * seq bound) :=
  let lower := nseq (params_size n_cams n_pts) NegInf in
  let upper := nseq (params_size n_cams n_pts) PosInf in
  let k := K_idx n_cams in
  rbind (Np.slice_assign lower k (k + 3)%N
           [:: Finite 100%:R; Finite 0; Finite 0]) (fun lower' =>
  rbind (Np.slice_assign upper k (k + 3)%N
           [:: Finite 800%:R; Finite img_w%:R; Finite img_h%:R])
        (fun upper' =>
  Ok (lower', upper'))).

End BundleAdjustment.

(* ===================================================================== *)
(** * Part I, continued: the vocabulary of the statements                 *)
(* ===================================================================== *)

(** ** States of a method related before and after *)

Section Preservation.
Variable S : Type.
Variable rel : S -> S -> Prop.

(** Every run of [c] relates the state it starts from to the state it
    reaches, whether it returns or raises. *)
Definition preserves A (c : St S A) : Prop := forall s, rel s (c s).2.

End Preservation.

Section SceneVocabulary.
Variables (Image KeyPoint Point3 Pose : Type).
Local Notation MM := (MatchMaker Image KeyPoint Point3 Pose).

(** The shape of the visibility array. *)
Definition vis_shape (mm : MM) : option (seq nat) :=
  omap (map size) (point3d_camera_visibility mm).

Definition same_vis_shape (mm mm' : MM) : Prop :=
  vis_shape mm' = vis_shape mm.

End SceneVocabulary.

(** Entry [i] of an array (row [i] of a two-dimensional one) replaced by
    [r]. *)
Definition set_row T (vis : seq T) (i : nat) (r : T) : seq T :=
  take i vis ++ r :: drop i.+1 vis.

(** Columns [lo .. lo + size v - 1] of a row overwritten by [v]. *)
Definition write_cols (row : seq int) (lo : nat) (v : seq int) : seq int :=
  take lo row ++ v ++ drop (lo + size v) row.

(** ** Linear algebra *)

Section MatrixVocabulary.
Variable R : realFieldType.
Local Open Scope ring_scope.
Variable svd :
  forall m n : nat, 'M[R]_(m, n) -> 'M[R]_m * 'rV[R]_(minn m n) * 'M[R]_n.

Definition orthogonal_mx n (A : 'M[R]_n) : Prop := A *m A^T = 1%:M.

(** [(U, s, VT)] is a singular value decomposition of [A]. *)
Definition is_svd (A U : 'M[R]_3) (s : seq R) (VT : 'M[R]_3) : Prop :=
  [/\ orthogonal_mx U, orthogonal_mx VT,
      A = U *m diag_mx (\row_(j < 3) nth 0 s j) *m VT &
      sorted (fun x y => y <= x) s /\ all (fun x => 0 <= x) s].

(** The matrix [calculateEssentialMatrix] reshapes from the first SVD. *)
Definition first_estimate (ptsLeftHomog ptsRightHomog : seq 'rV[R]_3)
  : 'M[R]_3 :=
  reshape33 (row ord_max
               (svd_VT svd (constraint_matrix ptsLeftHomog ptsRightHomog))).

(** The inlier mask of the model fitted to the sample [idx]: the first half
    of the body of the RANSAC loop. *)
Definition sample_inliers (mpts01f mpts10f : seq 'rV[R]_3) (idx : seq nat)
  : result (seq bool) :=
  if (size mpts01f < 9)%N then Raise ValueError else
  rbind (Np.take_idx mpts01f [seq Posz i | i <- idx]) (fun pts_left =>
  rbind (Np.take_idx mpts10f [seq Posz i | i <- idx]) (fun pts_right =>
  rbind (calculateEssentialMatrix svd pts_left pts_right) (fun E_guess =>
  rbind (epipolar_distance E_guess mpts01f mpts10f) (fun d =>
  Ok (inlier_mask d))))).

(** The constraint matrix of the triangulation as the specification words
    it: the right view projects with [K[R|t]], the left view with the
    identity extrinsic, [K[I|0]]. *)
Definition triangulation_system_spec (K_ Rm : 'M[R]_3) (t : 'cV[R]_3)
    (pr pl : R * R) : 'M[R]_4 :=
  let P := K_ *m row_mx Rm t in
  let P_left := K_ *m row_mx 1%:M (0 : 'cV[R]_3) in
  let: (x_r, y_r) := pr in
  let: (x_l, y_l) := pl in
  \matrix_(i < 4, j < 4)
     nth 0 [:: x_r * P r2 j - P r0 j;
               y_r * P r2 j - P r1 j;
               x_l * P_left r2 j - P_left r0 j;
               y_l * P_left r2 j - P_left r1 j] i.

(** Columns of a matrix with four columns. *)
Definition c2 : 'I_4 := @Ordinal 4 2 isT.
Definition c3 : 'I_4 := @Ordinal 4 3 isT.

(** ** The seeding step on correspondences of equal number *)

Variable projectPoints : 'M[R]_3 -> 'cV[R]_3 -> 'M[R]_3 -> 'rV[R]_3 -> R * R.
Variable norm : R * R -> R.
Variables (R_best : 'M[R]_3) (t_best : 'cV[R]_3) (K : 'M[R]_3).

(** The points of line 767. *)
Definition seed_points (mpts01o mpts10o : seq (R * R)) : seq 'rV[R]_3 :=
  [seq solve_homogeneous svd
         (triangulation_system (K *m row_mx R_best t_best)
            (row_mx R_best t_best) prl.1 prl.2)
  | prl <- zip mpts01o mpts10o].

(** The mask of lines 772-778 on these points. *)
Definition seed_mask (mpts01o mpts10o : seq (R * R)) : seq bool :=
  let pts3d := seed_points mpts01o mpts10o in
  mask_reproj norm
    [seq projectPoints R_best t_best K p | p <- pts3d]
    [seq projectPoints 1%:M 0 K p | p <- pts3d] mpts10o mpts01o.

End MatrixVocabulary.

(* ===================================================================== *)
(** * Part I, continued: the inputs of the examples                       *)
(* ===================================================================== *)

(** ** Instances of the library calls *)

Section Oracles.
Variable R : realFieldType.
Local Open Scope ring_scope.

(** The factors [U = VT = 1]: orthogonal for every input. *)
Definition svd_id (m n : nat) (A : 'M[R]_(m, n))
  : 'M[R]_m * 'rV[R]_(minn m n) * 'M[R]_n := (1%:M, 0, 1%:M).

(** Entry [(a, b)] of a matrix of any shape. *)
Definition entry m n (A : 'M[R]_(m, n)) (a b : nat) : R :=
  \sum_(i < m) \sum_(j < n)
     (if (i == a :> nat) && (j == b :> nat) then A i j else 0).

(** The matrix whose row [i] is the unit vector [e_(s i)]. *)
Definition unit_rows (s : nat -> nat) n : 'M[R]_n :=
  \matrix_(i, j) ((s i == j :> nat)%:R).

Definition sigma9 (first : bool) (i : nat) : nat :=
  if first then (if i == 0 then 8 else if i == 8 then 0 else i)%N
  else (if i == 0 then 8 else if i == 8 then 1 else if i == 1 then 0 else i)%N.

Definition sigma3 (i : nat) : nat := nth 0%N [:: 1; 2; 0]%N i.
Definition tau3 (i : nat) : nat := nth 0%N [:: 0; 2; 1]%N i.

(** An SVD for the systems of the RANSAC examples below, whose rows all
    are [e_8] (every correspondence at the principal point).  On a system
    with nine columns the rows of [VT] are unit vectors, the first one
    [e_8] and the last one a null vector of the system: [e_0] when the
    system has [m0] rows, [e_1] otherwise.  On the 3x3 matrices these
    reshape to, [e_0 e_0^T] and [e_0 e_1^T], the triple is a singular
    value decomposition (lemmas [oracle_null_vector] and [oracle_svd33]). *)
Definition svd_oracle (m0 : nat) (m n : nat) (A : 'M[R]_(m, n))
  : 'M[R]_m * 'rV[R]_(minn m n) * 'M[R]_n :=
  if n == 9%N then
    (1%:M, \row_j ((j == 0 :> nat)%:R * (if m == 9%N then 3%:R else 4%:R)),
     unit_rows (sigma9 (m == m0)) n)
  else if entry A 0 1 == 0 then
    (1%:M, \row_j (j == 0 :> nat)%:R, 1%:M)
  else
    ((unit_rows tau3 m)^T, \row_j (j == 0 :> nat)%:R, unit_rows sigma3 n).

(** The model the oracle yields when the null vector chosen is [e_1]. *)
Definition E_other : 'M[R]_3 :=
  (unit_rows tau3 3)^T *m (Sigma R *m unit_rows sigma3 3).

(** The image point at the principal point, in normalized coordinates. *)
Definition centre : 'rV[R]_3 := \row_j (j == 2 :> nat)%:R.

(** A translation of one unit along the x axis. *)
Definition t_x : 'cV[R]_3 := \col_i (i == 0 :> nat)%:R.

(** Stand-ins for the two library calls of the seeding step: every point
    projects to the image origin, and the norm is the 1-norm. *)
Definition project_origin
    (Rm : 'M[R]_3) (t : 'cV[R]_3) (K : 'M[R]_3) (p : 'rV[R]_3) : R * R :=
  (0, 0).
Definition norm1 (v : R * R) : R := `|v.1| + `|v.2|.

End Oracles.

(** ** Scenes *)

Section Scenes.
Local Open Scope ring_scope.
Local Open Scope st_scope.

(** Sixteen correspondences at the principal point of both images. *)
Definition centred : seq 'rV[rat]_3 := nseq 16 (centre rat).

(** Two images with 500 keypoints each, keypoint [q] of the first matched
    to keypoint [q] of the second; a keypoint is named by its index. *)
Definition full_detect (img : nat) : seq nat := iota 0 500.
Definition full_matcher (i j : nat) : seq DMatch :=
  if (i == 0%N) && (j == 1%N) then [seq mkDMatch q q | q <- iota 0 500]
  else [::].

Definition full_start : MatchMaker nat nat nat unit :=
  (bind (addImagesAndExtractKeypoints full_detect tt [:: 0; 1]%N) (fun _ =>
   buildMatchGraph full_matcher) (init nat nat nat unit)).2.

(** The map after the 500 matches of the pair have been triangulated. *)
Definition full_map : MatchMaker nat nat nat unit :=
  (addNewPoints3D (iota 0 500) 0 1 None full_start).2.

(** Three images with three keypoints each; a keypoint is named by its
    image and its index.  Keypoints 0 and 1 of image 0 match keypoints 0
    and 1 of image 2 and are triangulated; only keypoint 1 of image 0 has
    a match in image 1. *)
Definition tri_detect (img : nat) : seq (nat * nat) :=
  [:: (img, 0); (img, 1); (img, 2)]%N.
Definition tri_matcher (i j : nat) : seq DMatch :=
  match i, j with
  | 0, 1 => [:: mkDMatch 1 0]
  | 0, 2 => [:: mkDMatch 0 0; mkDMatch 1 1]
  | _, _ => [::]
  end%N.

Definition tri_scene : MatchMaker nat (nat * nat) nat unit :=
  (bind (addImagesAndExtractKeypoints tri_detect tt [:: 0; 1; 2]%N) (fun _ =>
   bind (buildMatchGraph tri_matcher) (fun _ =>
   addNewPoints3D [:: 0; 1]%N 0 2 (Some [:: true; true])))
     (init nat (nat * nat) nat unit)).2.

(** Eight images with the same two keypoints, at (0,0) and at (10,0); the
    seed pair matches them in order.  A keypoint is its location. *)
Definition pair_detect (img : nat) : seq (rat * rat) :=
  [:: (0, 0); (10%:R, 0)].
Definition pair_matcher (i j : nat) : seq DMatch :=
  if (i == SEED_LEFT) && (j == SEED_RIGHT)
  then [:: mkDMatch 0 0; mkDMatch 1 1] else [::].

Definition pair_scene : Scene rat nat (rat * rat) :=
  (bind (addImagesAndExtractKeypoints pair_detect 0 (iota 0 8)) (fun _ =>
   buildMatchGraph pair_matcher)
     (init nat (rat * rat) 'rV[rat]_3 'M[rat]_(3, 4))).2.

(** Eight images with 501 keypoints at (0,0); the seed pair matches them
    in order. *)
Definition crowd_detect (img : nat) : seq (rat * rat) := nseq 501 (0, 0).
Definition crowd_matcher (i j : nat) : seq DMatch :=
  if (i == SEED_LEFT) && (j == SEED_RIGHT)
  then [seq mkDMatch q q | q <- iota 0 501] else [::].

Definition crowd_scene : Scene rat nat (rat * rat) :=
  (bind (addImagesAndExtractKeypoints crowd_detect 0 (iota 0 8)) (fun _ =>
   buildMatchGraph crowd_matcher)
     (init nat (rat * rat) 'rV[rat]_3 'M[rat]_(3, 4))).2.

End Scenes.

(* ===================================================================== *)
(** * Part II: properties                                                 *)
(* ===================================================================== *)

(** ** Array operations *)

Section NpFacts.
Variable T : Type.
Implicit Types (a v : seq T).

Lemma slice_assign_size a lo hi v a' :
  Np.slice_assign a lo hi v = Ok a' -> size a' = size a.
Proof.
rewrite /Np.slice_assign.
set lo' := minn lo (size a); set hi' := maxn lo' _.
have hlo : lo' <= size a by rewrite geq_minr.
have hhi : hi' <= size a by rewrite geq_max hlo geq_minr.
have hlh : lo' <= hi' by rewrite leq_maxl.
have sz w : size w = hi' - lo' -> size (take lo' a ++ w ++ drop hi' a) = size a.
  move=> sw; rewrite !size_cat size_takel // size_drop sw.
  by rewrite addnA subnKC // subnKC.
case: eqP => [sv [<-]|_]; first exact: sz.
case: v => [|x [|y v]] // [<-].
by apply: sz; rewrite size_nseq.
Qed.

Lemma slice_assign_fit a lo hi v :
  lo <= hi -> hi <= size a -> size v = hi - lo ->
  Np.slice_assign a lo hi v = Ok (take lo a ++ v ++ drop hi a).
Proof.
move=> hlh hhs sv; rewrite /Np.slice_assign.
have hls : lo <= size a by exact: leq_trans hhs.
have -> : minn lo (size a) = lo by apply/minn_idPl.
have -> : minn hi (size a) = hi by apply/minn_idPl.
have -> : maxn lo hi = hi by apply/maxn_idPr.
by rewrite sv eqxx.
Qed.

Lemma slice_assign_overflow a lo hi v :
  lo <= hi -> size a < hi -> size v = hi - lo -> 1 < size v ->
  Np.slice_assign a lo hi v = Raise ValueError.
Proof.
move=> hlh hsh sv v2; rewrite /Np.slice_assign.
have -> : minn hi (size a) = size a by apply/minn_idPr; exact: ltnW.
have -> : maxn (minn lo (size a)) (size a) = size a.
  by apply/maxn_idPr; rewrite geq_minr.
have -> : (size v == size a - minn lo (size a)) = false.
  apply/negbTE; rewrite neq_ltn; apply/orP; right.
  case: (leqP lo (size a)) => h.
    rewrite sv ltn_sub2r //; exact: leq_ltn_trans hsh.
  by rewrite subnn; exact: ltnW.
by case: v v2 {sv} => [|x [|y v]].
Qed.

Lemma setitem_size a k x a' : Np.setitem a k x = Ok a' -> size a' = size a.
Proof.
rewrite /Np.setitem; case: ltnP => // hk [<-].
by rewrite size_cat /= size_takel ?(ltnW hk) // size_drop addnS -addSn subnKC.
Qed.

Lemma item_nat_nth x0 a k : k < size a -> Np.item_nat a k = Ok (nth x0 a k).
Proof.
move=> hk; rewrite /Np.item_nat /Np.item /= hk /=.
by rewrite onthE (nth_map x0).
Qed.
End NpFacts.
(** ** Preservation of a relation between the states of a method *)

Section Preserve.
Variable S : Type.
Variable rel : S -> S -> Prop.
Hypothesis rel_refl : forall s, rel s s.
Hypothesis rel_trans : forall s1 s2 s3, rel s1 s2 -> rel s2 s3 -> rel s1 s3.
Local Notation preserves := (preserves rel).

Lemma preserves_ret A (a : A) : preserves (ret a).
Proof. by move=> s. Qed.

Lemma preserves_raise A e : preserves (raise e : St S A).
Proof. by move=> s. Qed.

Lemma preserves_lift A (r : result A) : preserves (lift r).
Proof. by move=> s. Qed.

Lemma preserves_get : preserves (@get S).
Proof. by move=> s. Qed.

Lemma preserves_modify f : (forall s, rel s (f s)) -> preserves (modify f).
Proof. by move=> h s; exact: h. Qed.

Lemma preserves_bind A B (c : St S A) (k : A -> St S B) :
  preserves c -> (forall a, preserves (k a)) -> preserves (bind c k).
Proof.
move=> hc hk s; rewrite /bind; move: (hc s).
case: (c s) => [[a|e] s'] //= h.
exact: rel_trans h (hk a s').
Qed.

Lemma preserves_if A (b : bool) (c1 c2 : St S A) :
  preserves c1 -> preserves c2 -> preserves (if b then c1 else c2).
Proof. by case: b. Qed.

End Preserve.

Section SceneFacts.
Variables (Image KeyPoint Point3 Pose : Type).
Local Notation MM := (MatchMaker Image KeyPoint Point3 Pose).
Implicit Types (mm : MM).
Local Notation vis_shape := (@vis_shape Image KeyPoint Point3 Pose).
Local Notation same_vis_shape :=
  (@same_vis_shape Image KeyPoint Point3 Pose).

Lemma same_vis_shape_refl mm : same_vis_shape mm mm.
Proof. by []. Qed.

Lemma same_vis_shape_trans mm1 mm2 mm3 :
  same_vis_shape mm1 mm2 -> same_vis_shape mm2 mm3 -> same_vis_shape mm1 mm3.
Proof. by rewrite /same_vis_shape => <- <-. Qed.

Lemma setitem_row_shape (vis : seq (seq int)) row r' vis' :
  size r' = size (nth [::] vis row) ->
  Np.setitem vis row r' = Ok vis' -> map size vis' = map size vis.
Proof.
move=> sr; rewrite /Np.setitem; case: ltnP => // hrow [<-].
rewrite map_cat /= sr -[in RHS](cat_take_drop row vis).
by rewrite [in RHS](drop_nth [::] hrow) map_cat.
Qed.

Lemma visibility_set_slice_shape row lo hi v :
  preserves same_vis_shape
    (@visibility_set_slice Image KeyPoint Point3 Pose row lo hi v).
Proof.
move=> mm; rewrite /visibility_set_slice /bind /get /lift /modify /=.
case hv: (point3d_camera_visibility mm) => [vis|] //=.
case hr: (Np.item_nat vis row) => [r|] //=.
case hs: (Np.slice_assign r lo hi v) => [r'|] //=.
case hi': (Np.setitem vis row r') => [vis'|] //=.
rewrite /same_vis_shape /vis_shape /= hv /=; congr Some.
have hrow : row < size vis by move: hi'; rewrite /Np.setitem; case: ltnP.
apply: setitem_row_shape hi'; rewrite (slice_assign_size hs).
by move: hr; rewrite (item_nat_nth [::]) // => -[->].
Qed.

Lemma alignedIndices_state li rj mm :
  (@alignedIndices Image KeyPoint Point3 Pose li rj mm).2 = mm.
Proof.
rewrite /alignedIndices /bind /get /lift /=.
by case: dict_get => [[|m ms]|].
Qed.

Lemma addNewPoints3D_shape pts3d li rj mask :
  preserves same_vis_shape
    (@addNewPoints3D Image KeyPoint Point3 Pose pts3d li rj mask).
Proof.
have pb A B := @preserves_bind _ _ same_vis_shape_trans A B.
have pl A := @preserves_lift _ _ same_vis_shape_refl A.
have pg := @preserves_get _ _ same_vis_shape_refl.
have pr A := @preserves_ret _ _ same_vis_shape_refl A.
have pm := @preserves_modify MM same_vis_shape.
rewrite /addNewPoints3D.
apply: (pb) => // mm0; apply: (pb).
  by case: (map_3d mm0) => [m|] //; exact: (pm).
move=> _; apply: (pb) => // mm; apply: (pb) => // map0; apply: (pb) => // sel.
apply: (pb); first by move=> s; rewrite alignedIndices_state.
move=> al; apply: (pb) => // vl.
apply: (pb); first exact: visibility_set_slice_shape.
move=> _; apply: (pb) => // vr.
apply: (pb); first exact: visibility_set_slice_shape.
by move=> _; apply: (pm).
Qed.

End SceneFacts.

Section SceneSteps.
Variables (Image KeyPoint Point3 Pose : Type).
Local Notation MM := (MatchMaker Image KeyPoint Point3 Pose).
Implicit Types (mm : MM).

Lemma nth_set_row T (x0 : T) (vis : seq T) i r j :
  i < size vis -> nth x0 (set_row vis i r) j = if j == i then r else nth x0 vis j.
Proof.
move=> hi; rewrite /set_row nth_cat size_takel ?(ltnW hi) //.
case: (ltngtP j i) => [hj|hj|->].
- by rewrite nth_take.
- by rewrite -(subnKC hj) addSn -addnS addKn /= nth_drop addSnnS.
- by rewrite subnn.
Qed.

Lemma size_set_row T (vis : seq T) i r :
  i < size vis -> size (set_row vis i r) = size vis.
Proof.
move=> hi; rewrite /set_row size_cat /= size_takel ?(ltnW hi) // size_drop.
by rewrite addnS -addSn subnKC.
Qed.

Lemma nth_write_cols row lo v c :
  lo + size v <= size row ->
  nth 0%R (write_cols row lo v) c =
    if (lo <= c) && (c < lo + size v) then nth 0%R v (c - lo) else nth 0%R row c.
Proof.
move=> hfit; rewrite /write_cols.
have hlo : lo <= size row by exact: leq_trans (leq_addr _ _) hfit.
rewrite nth_cat size_takel //.
case: (ltnP c lo) => hc /=; first by rewrite nth_take.
rewrite nth_cat; case: (ltnP c (lo + size v)) => hc2.
  by rewrite -(ltn_add2l lo) subnKC // hc2.
rewrite -(ltn_add2l lo) subnKC // ltnNge hc2 /= nth_drop.
by rewrite -subnDA subnKC.
Qed.

Lemma visibility_set_slice_fits mm (vis : seq (seq int)) row lo v :
  point3d_camera_visibility mm = Some vis -> row < size vis ->
  lo + size v <= size (nth [::] vis row) ->
  visibility_set_slice row lo (lo + size v) v mm =
    (Ok tt, set_visibility
              (Some (set_row vis row (write_cols (nth [::] vis row) lo v))) mm).
Proof.
move=> hv hrow hfit.
rewrite /visibility_set_slice /bind /get /lift /modify /= hv /=.
rewrite (item_nat_nth [::]) //= slice_assign_fit ?leq_addr ?addKn //=.
by rewrite /Np.setitem hrow.
Qed.

Lemma visibility_set_slice_overflow mm (vis : seq (seq int)) row lo v :
  point3d_camera_visibility mm = Some vis -> row < size vis ->
  size (nth [::] vis row) < lo + size v -> 1 < size v ->
  visibility_set_slice row lo (lo + size v) v mm = (Raise ValueError, mm).
Proof.
move=> hv hrow hover hv2.
rewrite /visibility_set_slice /bind /get /lift /modify /= hv /=.
by rewrite (item_nat_nth [::]) //= slice_assign_overflow ?leq_addr ?addKn.
Qed.

Lemma alignedIndices_ok mm li rj ms :
  dict_get (matches mm) li rj = Ok ms -> 0 < size ms ->
  alignedIndices li rj mm =
    (Ok ([seq Posz (queryIdx m) | m <- ms], [seq Posz (trainIdx m) | m <- ms]),
     mm).
Proof.
move=> hd hms; rewrite /alignedIndices /bind /get /lift /= hd /=.
by case: ms hms {hd}.
Qed.

End SceneSteps.

Section AddPoints.
Variables (Image KeyPoint Point3 Pose : Type).
Local Notation MM := (MatchMaker Image KeyPoint Point3 Pose).
Variables (mm : MM) (pts3d : seq Point3) (li rj : nat) (m : seq bool).
Variables (vis : seq (seq int)) (ms : seq DMatch).
Hypothesis Hvis : point3d_camera_visibility mm = Some vis.
Hypothesis Hms : dict_get (matches mm) li rj = Ok ms.
Hypothesis Hsz : size ms = size pts3d.
Hypothesis Hm : size m = size pts3d.
Hypothesis Hpos : 0 < size ms.
Hypothesis Hli : li < size vis.
Hypothesis Hrj : rj < size vis.

Let map0 := odflt [::] (map_3d mm).
Let mapIS := size map0.
Let k := count id m.
Let vL := [seq Posz (queryIdx d) | d <- mask m ms].
Let vR := [seq Posz (trainIdx d) | d <- mask m ms].

Lemma addNewPoints3D_fits :
  li != rj ->
  mapIS + k <= size (nth [::] vis li) ->
  mapIS + k <= size (nth [::] vis rj) ->
  addNewPoints3D pts3d li rj (Some m) mm =
    (Ok tt,
     set_map_3d (Some (map0 ++ mask m pts3d))
       (set_visibility
          (Some (set_row (set_row vis li (write_cols (nth [::] vis li) mapIS vL))
                         rj (write_cols (nth [::] vis rj) mapIS vR))) mm)).
Proof.
move=> hne hfl hfr.
have hk : size (mask m pts3d) = k by rewrite size_mask.
have hvL : size vL = k by rewrite size_map size_mask // Hm.
have hvR : size vR = k by rewrite size_map size_mask // Hm.
pose mm1 := if map_3d mm is None then set_map_3d (Some [::]) mm else mm.
have hmap1 : map_3d mm1 = Some map0.
  by rewrite /mm1 /map0; case E: (map_3d mm).
have hvis1 : point3d_camera_visibility mm1 = Some vis.
  by rewrite /mm1; case: (map_3d mm).
have hms1 : dict_get (matches mm1) li rj = Ok ms.
  by rewrite /mm1; case: (map_3d mm).
have -> : addNewPoints3D pts3d li rj (Some m) mm =
          (bind get (fun mm' =>
             bind (lift (attr (map_3d mm'))) (fun map0 =>
             bind (lift (Np.bmask m pts3d)) (fun sel =>
             bind (alignedIndices li rj) (fun al =>
             bind (lift (Np.bmask m al.1)) (fun vl =>
             bind (visibility_set_slice li (size map0) (size map0 + size sel) vl)
               (fun _ =>
             bind (lift (Np.bmask m al.2)) (fun vr =>
             bind (visibility_set_slice rj (size map0) (size map0 + size sel) vr)
               (fun _ =>
             modify (set_map_3d (Some (map0 ++ sel))))))))))))
            mm1.
  by rewrite /addNewPoints3D /mm1 /bind /get /modify /=; case: (map_3d mm).
rewrite /bind /get /lift /= hmap1 /= /Np.bmask Hm eqxx /=.
rewrite (alignedIndices_ok hms1) //= !size_map Hsz !eqxx /=.
rewrite -!map_mask -/vL -/vR hk -/mapIS -[in X in visibility_set_slice _ _ X vL]hvL.
rewrite (visibility_set_slice_fits hvis1) ?hvL //=.
rewrite -[in X in visibility_set_slice _ _ X vR]hvR.
set vis1 := set_row vis li _.
have hvis2 : point3d_camera_visibility (set_visibility (Some vis1) mm1)
             = Some vis1 by [].
have hrow : nth [::] vis1 rj = nth [::] vis rj.
  by rewrite nth_set_row // eq_sym (negbTE hne).
rewrite (visibility_set_slice_fits hvis2) ?hrow ?hvR ?size_set_row //=.
by rewrite /modify /mm1; case: (map_3d mm).
Qed.

Lemma addNewPoints3D_overflow :
  size (nth [::] vis li) < mapIS + k -> 1 < k ->
  let out := addNewPoints3D pts3d li rj (Some m) mm in
  [/\ out.1 = Raise ValueError,
      point3d_camera_visibility out.2 = Some vis &
      map_3d out.2 = Some map0].
Proof.
move=> hover hk2.
have hk : size (mask m pts3d) = k by rewrite size_mask.
have hvL : size vL = k by rewrite size_map size_mask // Hm.
pose mm1 := if map_3d mm is None then set_map_3d (Some [::]) mm else mm.
have hmap1 : map_3d mm1 = Some map0.
  by rewrite /mm1 /map0; case E: (map_3d mm).
have hvis1 : point3d_camera_visibility mm1 = Some vis.
  by rewrite /mm1; case: (map_3d mm).
have hms1 : dict_get (matches mm1) li rj = Ok ms.
  by rewrite /mm1; case: (map_3d mm).
have -> : addNewPoints3D pts3d li rj (Some m) mm =
          (bind get (fun mm' =>
             bind (lift (attr (map_3d mm'))) (fun map0 =>
             bind (lift (Np.bmask m pts3d)) (fun sel =>
             bind (alignedIndices li rj) (fun al =>
             bind (lift (Np.bmask m al.1)) (fun vl =>
             bind (visibility_set_slice li (size map0) (size map0 + size sel) vl)
               (fun _ =>
             bind (lift (Np.bmask m al.2)) (fun vr =>
             bind (visibility_set_slice rj (size map0) (size map0 + size sel) vr)
               (fun _ =>
             modify (set_map_3d (Some (map0 ++ sel))))))))))))
            mm1.
  by rewrite /addNewPoints3D /mm1 /bind /get /modify /=; case: (map_3d mm).
rewrite /bind /get /lift /= hmap1 /= /Np.bmask Hm eqxx /=.
rewrite (alignedIndices_ok hms1) //= !size_map Hsz !eqxx /=.
rewrite -!map_mask -/vL hk -/mapIS -[in X in visibility_set_slice _ _ X vL]hvL.
by rewrite (visibility_set_slice_overflow hvis1) ?hvL.
Qed.

End AddPoints.

Section Det.
Variable R : realFieldType.
Local Open Scope ring_scope.

Lemma det_W : \det (W R) = 1.
Proof.
rewrite (expand_det_row _ ord0) !big_ord_recl big_ord0 /cofactor.
rewrite !(expand_det_row _ ord0) !big_ord_recl !big_ord0 /cofactor.
rewrite !det_mx11 !mxE /= /bump /=.
ring.
Qed.

Lemma orthogonal_mx_det n (A : 'M[R]_n) :
  orthogonal_mx A -> \det A = 1 \/ \det A = -1.
Proof.
move=> /(congr1 determinant); rewrite det_mulmx det_tr det1 => /eqP.
by rewrite -expr2 sqrf_eq1 => /orP[] /eqP ->; [left|right].
Qed.

Lemma keep_rotations_two (U VT : 'M[R]_3) :
  orthogonal_mx U -> orthogonal_mx VT ->
  let Rs := keep_rotations (candidate_rotations U VT) [::] in
  [/\ size Rs = 2%N, all (fun Rm => 0 < \det Rm) Rs &
      Rs = [:: U *m W R *m VT; U *m (W R)^T *m VT] \/
      Rs = [:: (- U) *m W R *m VT; (- U) *m (W R)^T *m VT]].
Proof.
move=> oU oVT.
have dN (A : 'M[R]_3) : \det (- A) = - \det A.
  by rewrite -scaleN1r detZ; ring.
have d1 : \det (U *m W R *m VT) = \det U * \det VT.
  by rewrite !det_mulmx det_W mulr1.
have d2 : \det (U *m (W R)^T *m VT) = \det U * \det VT.
  by rewrite !det_mulmx det_tr det_W mulr1.
have d3 : \det (- U *m W R *m VT) = - (\det U * \det VT).
  by rewrite !det_mulmx dN det_W mulr1 mulNr.
have d4 : \det (- U *m (W R)^T *m VT) = - (\det U * \det VT).
  by rewrite !det_mulmx dN det_tr det_W mulr1 mulNr.
have [d|d] : \det U * \det VT = 1 \/ \det U * \det VT = -1.
- case: (orthogonal_mx_det oU) => ->; case: (orthogonal_mx_det oVT) => ->;
  rewrite ?mulrNN ?mulr1 ?mul1r; by [left | right].
- rewrite /candidate_rotations /= d1 d2 d ltr01 /= d1 d2 d ltr01 /=.
  by split=> //; left.
- rewrite /candidate_rotations /= d1 d2 d3 d4 d opprK ltr01 ltr0N1 /=.
  by rewrite d3 d4 d opprK ltr01; split=> //; right.
Qed.
End Det.

Section Rank2.
Variable R : realFieldType.
Local Open Scope ring_scope.

Lemma orthogonal_mx_unit n (A : 'M[R]_n) : orthogonal_mx A -> A \in unitmx.
Proof. by case/mulmx1_unit. Qed.

Lemma orthogonal_mx_tr n (A : 'M[R]_n) : orthogonal_mx A -> A^T *m A = 1%:M.
Proof. by move=> /mulmx1C. Qed.

Lemma Sigma_pid : Sigma R = pid_mx 2.
Proof.
apply/matrixP => i j; rewrite !mxE.
by case: i => [[|[|[|?]]] ?] //; case: j => [[|[|[|?]]] ?] //=;
   rewrite ?mulr1n ?mulr0n.
Qed.

Lemma Sigma_idem : Sigma R *m Sigma R = Sigma R.
Proof. by rewrite Sigma_pid mul_pid_mx. Qed.

Lemma Sigma_tr : (Sigma R)^T = Sigma R.
Proof. by rewrite Sigma_pid tr_pid_mx. Qed.

Lemma rank_recomposed (U VT : 'M[R]_3) :
  orthogonal_mx U -> orthogonal_mx VT -> \rank (U *m (Sigma R *m VT)) = 2%N.
Proof.
move=> /orthogonal_mx_unit uU /orthogonal_mx_unit uVT.
rewrite eqmxMfull ?row_full_unit // mxrankMfree ?row_free_unit //.
by rewrite Sigma_pid rank_pid_mx.
Qed.

Lemma partial_isometry (U VT : 'M[R]_3) :
  orthogonal_mx U -> orthogonal_mx VT ->
  let E := U *m (Sigma R *m VT) in E *m E^T *m E = E.
Proof.
move=> oU oVT /=.
rewrite !trmx_mul Sigma_tr !mulmxA.
rewrite -(mulmxA (U *m Sigma R)) oVT mulmx1.
rewrite -(mulmxA (U *m Sigma R *m Sigma R)) (orthogonal_mx_tr oU) mulmx1.
by rewrite -(mulmxA U) Sigma_idem -(mulmxA U) Sigma_idem.
Qed.
End Rank2.

Section Oracle.
Variable R : realFieldType.
Local Open Scope ring_scope.
Local Notation svd_oracle := (@svd_oracle R).

Lemma oracle_last_row m0 m (A : 'M[R]_(m, 9)) :
  row ord_max (svd_VT (svd_oracle m0) A)
  = \row_j (j == (if m == m0 then 0 else 1)%N :> nat)%:R.
Proof.
apply/rowP => j; rewrite /svd_VT /svd_oracle /= !mxE /sigma9 /=.
by rewrite eq_sym.
Qed.

Lemma reshape33_unit (k : nat) : (k < 3)%N ->
  reshape33 (\row_j (j == k :> nat)%:R : 'rV[R]_9)
  = \matrix_(i, j) ((i == 0 :> nat) && (j == k :> nat))%:R.
Proof.
move=> hk; apply/matrixP => i j; rewrite !mxE inordK; last first.
  congr (_%:R); congr nat_of_bool.
  by case: i => [[|[|[|?]]] ?] //; case: j => [[|[|[|?]]] ?] //;
     case: k hk => [|[|[|?]]].
have /ssrnat.ltP hi := ltn_ord i; have /ssrnat.ltP hj := ltn_ord j.
by apply/ssrnat.ltP; rewrite -multE -plusE; lia.
Qed.

Lemma entry33 (A : 'M[R]_3) (a b : nat) (ha : (a < 3)%N) (hb : (b < 3)%N) :
  entry A a b = A (Ordinal ha) (Ordinal hb).
Proof.
rewrite /entry !big_ord_recl !big_ord0 /=.
have e (i j : 'I_3) : val i = a -> val j = b -> A i j = A (Ordinal ha) (Ordinal hb).
  by move=> ei ej; congr (A _ _); apply: val_inj.
case: a ha e => [|[|[|?]]] // ha e; case: b hb e => [|[|[|?]]] // hb e;
  rewrite /= ?addr0 ?add0r; exact: e.
Qed.
End Oracle.

Section OracleEval.
Variable R : realFieldType.
Local Open Scope ring_scope.
Local Notation E_other := (E_other R).

Lemma recomposed_oracle m0 m (A : 'M[R]_(m, 9)) :
  let E0 := reshape33 (row ord_max (svd_VT (svd_oracle m0) A)) in
  svd_U (svd_oracle m0) E0 *m (Sigma R *m svd_VT (svd_oracle m0) E0)
  = if m == m0 then Sigma R else E_other.
Proof.
rewrite /= oracle_last_row.
case: (m == m0); rewrite reshape33_unit // /svd_U /svd_VT /svd_oracle /=;
  rewrite (entry33 _ (isT : 0 < 3)%N (isT : 1 < 3)%N) mxE /=.
- by rewrite eqxx /= mul1mx mulmx1.
- by rewrite oner_eq0.
Qed.


Lemma centre_form (E : 'M[R]_3) :
  (centre R *m (E *m (centre R)^T)) 0 0 = E r2 r2.
Proof.
rewrite !mxE !big_ord_recl !big_ord0 !mxE /= !big_ord_recl !big_ord0 !mxE /=.
rewrite !mul0r !mulr0 !add0r !addr0 mul1r mulr1.
by congr (E _ _); apply: val_inj.
Qed.

Lemma Sigma22 : Sigma R r2 r2 = 0.
Proof. by rewrite !mxE /= mulr1n. Qed.

Lemma E_other22 : E_other r2 r2 = 1.
Proof.
rewrite /E_other !mxE !big_ord_recl !big_ord0 !mxE /=.
rewrite !big_ord_recl !big_ord0 !mxE /=.
by rewrite ?mulr1n ?mulr0n ?mul0r ?mulr0 ?mul1r ?mulr1 ?add0r ?addr0.
Qed.
End OracleEval.

Section RansacFacts.
Variable R : realFieldType.
Local Open Scope ring_scope.
Variable svd :
  forall m n : nat, 'M[R]_(m, n) -> 'M[R]_m * 'rV[R]_(minn m n) * 'M[R]_n.
Local Notation sample_inliers := (sample_inliers svd).

Lemma epipolar_distance_size E (L R' : seq 'rV[R]_3) d :
  epipolar_distance E L R' = Ok d -> size d = size L.
Proof.
by rewrite /epipolar_distance; case: ifP => // _ [<-]; rewrite size_map size_iota.
Qed.


Lemma sample_inliers_size L R' idx m :
  sample_inliers L R' idx = Ok m -> size m = size L.
Proof.
rewrite /sample_inliers; case: ifP => // _.
case: Np.take_idx => //= pl; case: Np.take_idx => //= pr.
case: calculateEssentialMatrix => //= E.
case hd: epipolar_distance => [d|] //= [<-].
by rewrite size_map (epipolar_distance_size hd).
Qed.

Lemma ransac_iter_split L R' idx st :
  ransac_iter svd L R' idx st =
  rbind (sample_inliers L R' idx) (fun inliers =>
  rbind (Np.bmask inliers L) (fun inlier_pts_left =>
  rbind (Np.bmask inliers R') (fun inlier_pts_right =>
  rbind (calculateEssentialMatrix svd inlier_pts_left inlier_pts_right)
        (fun E_inliers =>
  if (maxv st < count id inliers)%N then
    rbind (epipolar_distance E_inliers L R') (fun d1 =>
    rbind (Np.bmask inliers d1) (fun d1_best =>
    Ok (mkRansac (count id inliers) (Some inliers) (Some E_inliers)
                 (Some (mean d1_best)))))
  else Ok st)))).
Proof.
rewrite /ransac_iter /sample_inliers; case: ifP => // _.
case: Np.take_idx => //= pl; case: Np.take_idx => //= pr.
case: calculateEssentialMatrix => //= E.
by case: epipolar_distance.
Qed.

Lemma refit_defined L R' m :
  size L = size R' -> size m = size L ->
  [/\ Np.bmask m L = Ok (mask m L), Np.bmask m R' = Ok (mask m R') &
      exists E, calculateEssentialMatrix svd (mask m L) (mask m R') = Ok E].
Proof.
move=> hLR hm; rewrite /Np.bmask -hLR hm eqxx; split=> //.
have hle : (size (mask m L) <= size (mask m R'))%N.
  by rewrite !size_mask ?hm.
by rewrite /calculateEssentialMatrix hle; eexists.
Qed.

Lemma ransac_iter_empty L R' idx st m :
  size L = size R' -> sample_inliers L R' idx = Ok m -> count id m = 0%N ->
  ransac_iter svd L R' idx st = Ok st.
Proof.
move=> hLR hs h0; rewrite ransac_iter_split hs /=.
have [h1 h2 [E hE]] := refit_defined hLR (sample_inliers_size hs).
by rewrite h1 /= h2 /= hE /= h0.
Qed.


End RansacFacts.

Section RansacExample.
Variable R : realFieldType.
Local Open Scope ring_scope.

Lemma take_idx_nseq T (c : T) n (idx : seq nat) :
  all (fun i => i < n)%N idx ->
  Np.take_idx (nseq n c) [seq Posz i | i <- idx] = Ok (nseq (size idx) c).
Proof.
have item_nseq i : (i < n)%N -> Np.item (nseq n c) (Posz i) = Ok c.
  by move=> hi; rewrite /Np.item /= size_nseq hi /= onth_nseq hi.
rewrite /Np.take_idx; elim: idx => [|i idx IH] //= /andP[hi hall].
by rewrite item_nseq //= IH.
Qed.

Lemma epipolar_distance_centre (E : 'M[R]_3) n :
  epipolar_distance E (nseq n (centre R)) (nseq n (centre R))
  = Ok (nseq n `|E r2 r2|).
Proof.
rewrite /epipolar_distance size_nseq leqnn; congr Ok.
apply: (@eq_from_nth _ 0); rewrite size_map size_iota ?size_nseq // => i hi.
by rewrite (nth_map 0%N) ?size_iota // nth_iota // add0n !nth_nseq hi centre_form.
Qed.

Lemma inlier_mask_nseq n (x : R) :
  inlier_mask (nseq n x) = nseq n (x < 2%:R / 10000%:R).
Proof. by rewrite /inlier_mask map_nseq. Qed.

Lemma zero_is_inlier : (`|0 : R| < 2%:R / 10000%:R) = true.
Proof. by rewrite normr0 divr_gt0 // ltr0n. Qed.

Lemma one_is_outlier : (`|1 : R| < 2%:R / 10000%:R) = false.
Proof. by rewrite normr1 ltr_pdivlMr ?ltr0n // mul1r ltr_nat. Qed.

Lemma sample_inliers_centre m0 n :
  (9 <= n)%N ->
  sample_inliers (svd_oracle m0) (nseq n (centre R)) (nseq n (centre R))
                 (iota 0 9)
  = Ok (nseq n (9%N == m0)).
Proof.
move=> hn; rewrite /sample_inliers size_nseq ltnNge hn.
have hall : all (fun i => i < n)%N (iota 0 9).
  by apply/allP => i; rewrite mem_iota add0n => /andP[_ /leq_trans]; apply.
have rbindE A B (a : A) (f : A -> result B) : rbind (Ok a) f = f a by [].
rewrite (take_idx_nseq _ hall) !rbindE recomposed_oracle.
rewrite epipolar_distance_centre rbindE inlier_mask_nseq size_nseq size_iota.
case: eqP => _; first by rewrite Sigma22 zero_is_inlier.
by rewrite E_other22 one_is_outlier.
Qed.
End RansacExample.

Section GeometryClaims.
Variable R : realFieldType.
Local Open Scope ring_scope.
Variable svd :
  forall m n : nat, 'M[R]_(m, n) -> 'M[R]_m * 'rV[R]_(minn m n) * 'M[R]_n.
Local Notation first_estimate := (first_estimate svd).

Lemma calculateEssentialMatrix_ok (L R' : seq 'rV[R]_3) :
  (size L <= size R')%N ->
  calculateEssentialMatrix svd L R'
  = Ok (svd_U svd (first_estimate L R')
        *m (Sigma R *m svd_VT svd (first_estimate L R'))).
Proof. by rewrite /calculateEssentialMatrix => ->. Qed.

Lemma calculateEssentialMatrix_short (L R' : seq 'rV[R]_3) :
  (size R' < size L)%N -> calculateEssentialMatrix svd L R' = Raise IndexError.
Proof. by rewrite /calculateEssentialMatrix ltnNge => /negbTE ->. Qed.

(** C3 (amended), [calculateEssentialMatrix], lines 362-386: the solver
    checks no number of correspondences.  Whenever the left array is no
    longer than the right one, and so for fewer than eight pairs as well,
    it returns a matrix, the recomposition [U Sigma VT] of the second
    decomposition; no exception reports insufficient correspondences. *)
Theorem C3_no_insufficiency_check (L R' : seq 'rV[R]_3) :
  (size L <= size R')%N ->
  exists E, calculateEssentialMatrix svd L R' = Ok E /\
            E = svd_U svd (first_estimate L R')
                *m (Sigma R *m svd_VT svd (first_estimate L R')).
Proof. by move=> h; eexists; split; first exact: calculateEssentialMatrix_ok. Qed.

(** C5, [calculateEssentialMatrix], lines 375-386: when the factors the
    second decomposition returns are orthogonal, the matrix returned is
    [U diag(1,1,0) VT], so that [(U, (1,1,0), VT)] is a singular value
    decomposition of it: its singular values are exactly 1, 1, 0, its rank
    is 2, and it is a partial isometry. *)
Theorem C5_rank_two (L R' : seq 'rV[R]_3) :
  (size L <= size R')%N ->
  orthogonal_mx (svd_U svd (first_estimate L R')) ->
  orthogonal_mx (svd_VT svd (first_estimate L R')) ->
  exists E,
    [/\ calculateEssentialMatrix svd L R' = Ok E,
        is_svd E (svd_U svd (first_estimate L R')) [:: 1; 1; 0]
                 (svd_VT svd (first_estimate L R')),
        \rank E = 2%N &
        E *m E^T *m E = E].
Proof.
move=> hs oU oVT; eexists; split; first exact: calculateEssentialMatrix_ok.
- split=> //; first by rewrite mulmxA.
  by rewrite /= !lexx !ler01.
- exact: rank_recomposed.
- exact: partial_isometry.
Qed.

(** C4, decomposition of E, lines 561-585: for orthogonal factors [U] and
    [VT], of the four candidates [U W VT], [U W^T VT], [-U W VT],
    [-U W^T VT] exactly two have a positive determinant: the first two or
    the last two.  The decomposition keeps these two, and with the two
    signs of the translation they give four pose hypotheses. *)
Theorem C4_two_rotations (E : 'M[R]_3) :
  orthogonal_mx (svd_U svd E) -> orthogonal_mx (svd_VT svd E) ->
  let: (Rs, t) := decompose_essential svd E in
  [/\ size Rs = 2%N,
      all (fun Rm => 0 < \det Rm) Rs,
      (let U := svd_U svd E in let VT := svd_VT svd E in
       Rs = [:: U *m W R *m VT; U *m (W R)^T *m VT] \/
       Rs = [:: (- U) *m W R *m VT; (- U) *m (W R)^T *m VT]) &
      exists hs, pose_hypotheses Rs t = Ok hs /\ size hs = 4%N].
Proof.
move=> oU oVT; rewrite /decompose_essential.
have [h2 hpos hor] := keep_rotations_two oU oVT.
split=> //.
move: h2; case: keep_rotations => [|a [|b [|c Rs]]] // _.
by eexists; split.
Qed.

End GeometryClaims.

Section Triangulation.
Variable R : realFieldType.
Local Open Scope ring_scope.

Lemma row_mx_last (A : 'M[R]_3) (t : 'cV[R]_3) i : (row_mx A t) i c3 = t i 0.
Proof.
have -> : c3 = rshift 3 (0 : 'I_1) by apply: val_inj.
by rewrite row_mxEr.
Qed.

End Triangulation.

Section TriangulationEval.
Local Open Scope ring_scope.

(** C1, [triangulatePoints], lines 681-717: the two left-view rows of the
    constraint matrix are not built from the identity extrinsic.  The code
    takes them from [Rt = [R|t]], the extrinsic of the right camera without
    the intrinsics.  For [K = R = 1], [t = (1,0,0)] and both image points
    at the origin, the entry in row 2 and column 3 of the matrix of the
    code is [-1], where the matrix of the claim, with left rows from
    [K[I|0]], has [0]. *)
Theorem C1_left_rows_from_right_extrinsic :
  let K_ : 'M[rat]_3 := 1%:M in
  let Rm : 'M[rat]_3 := 1%:M in
  let t := t_x rat in
  let A := triangulation_system (K_ *m row_mx Rm t) (row_mx Rm t)
             (0, 0) (0, 0) in
  let A_spec := triangulation_system_spec K_ Rm t (0, 0) (0, 0) in
  [/\ A c2 c3 = -1, A_spec c2 c3 = 0 & A <> A_spec].
Proof.
move=> K_ Rm t A A_spec.
have hA : A c2 c3 = -1.
  by rewrite /A mxE /= !row_mx_last !mxE /= mul0r sub0r.
have hS : A_spec c2 c3 = 0.
  by rewrite /A_spec mxE /= !mul1mx !row_mx_last !mxE mul0r subr0.
split=> // e; move: hA; rewrite e hS => /eqP.
by rewrite eq_sym oppr_eq0 oner_eq0.
Qed.

End TriangulationEval.

Section Bounds.
Variable R : realFieldType.
Local Open Scope ring_scope.

Lemma nth_slice T (x0 : T) (a v : seq T) (lo c : nat) :
  (lo + size v <= size a)%N ->
  nth x0 (take lo a ++ v ++ drop (lo + size v) a) c =
    if (lo <= c)%N && (c < lo + size v)%N then nth x0 v (c - lo)
    else nth x0 a c.
Proof.
move=> hfit.
have hlo : (lo <= size a)%N by exact: leq_trans (leq_addr _ _) hfit.
rewrite nth_cat size_takel //.
case: (ltnP c lo) => hc /=; first by rewrite nth_take.
rewrite nth_cat; case: (ltnP c (lo + size v)) => hc2.
  by rewrite -(ltn_add2l lo) subnKC // hc2.
rewrite -(ltn_add2l lo) subnKC // ltnNge hc2 /= nth_drop.
by rewrite -subnDA subnKC.
Qed.

(** C8, [bounds], lines 1253-1256: the two bound vectors have one entry
    per parameter; the focal length, at [K_idx], is bounded to [100, 800],
    the principal point, at the two following indices, to [0, image width]
    and [0, image height]; every other parameter, so every camera pose and
    every point coordinate, has the bounds [-inf] and [+inf]. *)
Theorem C8_bounds_intrinsics_only (n_cams n_pts img_w img_h : nat) :
  exists lower upper : seq (bound R),
    [/\ bounds R n_cams n_pts img_w img_h = Ok (lower, upper),
        size lower = params_size n_cams n_pts,
        size upper = params_size n_cams n_pts &
        forall i, (i < params_size n_cams n_pts)%N ->
          (nth (NegInf R) lower i, nth (PosInf R) upper i) =
            if i == K_idx n_cams then (Finite 100%:R, Finite 800%:R)
            else if i == (K_idx n_cams + 1)%N then (Finite 0, Finite img_w%:R)
            else if i == (K_idx n_cams + 2)%N then (Finite 0, Finite img_h%:R)
            else (NegInf R, PosInf R)].
Proof.
set k := K_idx n_cams; set n := params_size n_cams n_pts.
have hk : (k + 3 <= n)%N.
  by rewrite /k /n /K_idx /params_size -addnA leq_add2l leq_addl.
have hkn : (k <= n)%N by exact: leq_trans (leq_addr _ _) hk.
pose lo3 : seq (bound R) := [:: Finite 100%:R; Finite 0; Finite 0].
pose hi3 : seq (bound R) := [:: Finite 800%:R; Finite img_w%:R; Finite img_h%:R].
exists (take k (nseq n (NegInf R)) ++ lo3 ++ drop (k + 3) (nseq n (NegInf R))),
       (take k (nseq n (PosInf R)) ++ hi3 ++ drop (k + 3) (nseq n (PosInf R))).
have sz (T : Type) (x : T) (v : seq T) : size v = 3%N ->
    size (take k (nseq n x) ++ v ++ drop (k + 3) (nseq n x)) = n.
  move=> sv; rewrite !size_cat size_drop size_takel ?size_nseq //.
  by rewrite sv addnA subnKC.
split; rewrite ?sz //.
- rewrite /bounds -/k -/n !slice_assign_fit ?size_nseq ?leq_addr ?addKn //.
- move=> i hi.
  rewrite (@nth_slice _ _ _ lo3) ?size_nseq // (@nth_slice _ _ _ hi3) ?size_nseq //.
  rewrite !nth_nseq hi; case: (ltnP i k) => h1 /=.
    by rewrite (ltn_eqF h1) (ltn_eqF (ltn_addr 1 h1)) (ltn_eqF (ltn_addr 2 h1)).
  move: hi; rewrite -(subnKC h1); set d := (i - k)%N => _.
  rewrite ltn_add2l addKn -[X in _ == X]addn0 !eqn_add2l.
  by case: d => [|[|[|d]]].
Qed.
End Bounds.

Section SceneClaims.
Variables (Image KeyPoint Point3 Pose : Type).
Local Notation MM := (MatchMaker Image KeyPoint Point3 Pose).

(** C9 (amended), [addImagesAndExtractKeypoints], lines 109-116, and
    [addNewPoints3D], lines 163-174: the visibility array is allocated with
    500 columns per camera, all [-1], and [addNewPoints3D] never changes
    its shape.  When the map after the append has at most 500 points, the
    call returns, the kept points are appended, and the entries of the two
    cameras at the column of each appended point are the indices of its
    two keypoints.  When the append takes the map beyond 500 points and at
    least two points are appended, the call raises ValueError and neither
    the map nor the visibility array has changed. *)
Theorem C9_visibility_capacity (mm : MM) (pts3d : seq Point3) (li rj : nat)
    (m : seq bool) (vis : seq (seq int)) (ms : seq DMatch) :
  point3d_camera_visibility mm = Some vis ->
  dict_get (matches mm) li rj = Ok ms ->
  size ms = size pts3d -> size m = size pts3d -> 0 < size ms ->
  li < size vis -> rj < size vis -> li != rj ->
  size (nth [::] vis li) = VIS_COLS -> size (nth [::] vis rj) = VIS_COLS ->
  let map0 := odflt [::] (map_3d mm) in
  let k := count id m in
  let kept := mask m ms in
  let out := addNewPoints3D pts3d li rj (Some m) mm in
  [/\ forall (detect : Image -> seq KeyPoint) (zero_pose : Pose) imgs,
        0 < size imgs ->
        point3d_camera_visibility
          (addImagesAndExtractKeypoints detect zero_pose imgs mm).2
        = Some (nseq (size imgs) (nseq VIS_COLS (-1)%R)),
      vis_shape out.2 = vis_shape mm,
      size map0 + k <= VIS_COLS ->
        [/\ out.1 = Ok tt,
            map_3d out.2 = Some (map0 ++ mask m pts3d) &
            exists2 vis', point3d_camera_visibility out.2 = Some vis' &
              forall p, p < k ->
                nth 0%R (nth [::] vis' li) (size map0 + p)
                  = Posz (queryIdx (nth (mkDMatch 0 0) kept p)) /\
                nth 0%R (nth [::] vis' rj) (size map0 + p)
                  = Posz (trainIdx (nth (mkDMatch 0 0) kept p))]
    & VIS_COLS < size map0 + k -> 1 < k ->
        [/\ out.1 = Raise ValueError,
            point3d_camera_visibility out.2 = Some vis &
            map_3d out.2 = Some map0]].
Proof.
move=> hv hd hsz hm hpos hli hrj hne hrl hrr map0 k kept out.
have hkept : size kept = k by rewrite size_mask // hm.
split.
- by move=> detect zp [|img imgs].
- exact: (addNewPoints3D_shape pts3d li rj (Some m) mm).
- move=> hfit; rewrite /out (addNewPoints3D_fits hv hd) ?hrl ?hrr //=.
  split=> //; eexists; first by [].
  move=> p hp.
  rewrite nth_set_row ?size_set_row // (negbTE hne) nth_set_row // eqxx.
  rewrite nth_set_row ?size_set_row // eqxx.
  rewrite !nth_write_cols ?size_map ?hkept ?hrl ?hrr //.
  rewrite leq_addr ltn_add2l hp addKn /=.
  by rewrite !(nth_map (mkDMatch 0 0)) ?hkept.
- move=> hover hk2.
  by apply: (addNewPoints3D_overflow hv hd hsz hm hpos hli); rewrite ?hrl.
Qed.

End SceneClaims.

(** C9, where the claim as stated fails: appending a single point to a map
    of 500 points returns normally; the map has 501 points and the
    visibility array is unchanged, the value of length one being broadcast
    onto the empty slice. *)
Lemma C9_single_point_beyond_capacity :
  let m := true :: nseq 499 false in
  let out := addNewPoints3D (iota 500 500) 0 1 (Some m) full_map in
  [/\ omap size (map_3d full_map) = Some 500, count id m = 1,
      out.1 = Ok tt, omap size (map_3d out.2) = Some 501 &
      point3d_camera_visibility out.2 = point3d_camera_visibility full_map].
Proof. by vm_compute. Qed.

(** C10, [alignedKptsTo3DMap], lines 184-193: the two arrays returned need
    not be aligned, nor of equal length.  In [tri_scene], where two
    keypoints of image 0 are in the map and only the second has a match in
    image 1, the call on cameras 0 and 1 returns two left keypoints and one
    right keypoint, and the right keypoint at position 0 is the partner of
    the left keypoint at position 1. *)
Theorem C10_alignment_lost :
  [/\ omap (take 3) (onth (odflt [::] (point3d_camera_visibility tri_scene)) 0)
        = Some [:: 0; 1; -1]%R,
      kpts_match_graph tri_scene
        = Some [:: [:: [:: -1; -1; -1]; [:: -1; 0; -1]; [:: 0; 1; -1]];
                   [:: [:: 1; -1; -1]; [:: -1; -1; -1]; [:: -1; -1; -1]];
                   [:: [:: 0; 1; -1]; [:: -1; -1; -1]; [:: -1; -1; -1]]]%R &
      alignedKptsTo3DMap tri_scene 0 1
        = Ok ([:: (0, 0); (0, 1)], [:: (1, 0)])].
Proof. by vm_compute. Qed.

Section AlignedFacts.
Variables (Image KeyPoint Point2 Point3 Pose : Type).
Variable pt : KeyPoint -> Point2.
Local Notation MM := (MatchMaker Image KeyPoint Point3 Pose).

Lemma rmap_size A B (f : A -> result B) (s : seq A) r :
  rmap f s = Ok r -> size r = size s.
Proof.
elim: s r => [|x s IH] r /=; first by case=> <-.
case: (f x) => //= y; case h: (rmap f s) => [ys|] //= [<-] /=.
by rewrite (IH _ h).
Qed.

Lemma aligned2D_inv (mm mm' : MM) li rj a b :
  aligned2D pt li rj mm = (Ok (a, b), mm') ->
  exists ms, [/\ dict_get (matches mm) li rj = Ok ms,
                 size a = size ms, size b = size ms & 0 < size ms].
Proof.
rewrite /aligned2D /bind /get /lift /=.
case hd: dict_get => [ms|] //=.
case: Np.item_nat => [kl|] //=; case: Np.item_nat => [kr|] //=.
case hr: rmap => [ps|] //=.
case: ps hr => [|p ps] //= hr [<- <- _].
exists ms; rewrite /= !size_map; have /= <- := rmap_size hr.
by split.
Qed.
End AlignedFacts.

Section SeedFacts.
Variable R : realFieldType.
Local Open Scope ring_scope.
Variable svd :
  forall m n : nat, 'M[R]_(m, n) -> 'M[R]_m * 'rV[R]_(minn m n) * 'M[R]_n.
Variable projectPoints : 'M[R]_3 -> 'cV[R]_3 -> 'M[R]_3 -> 'rV[R]_3 -> R * R.
Variable norm : R * R -> R.
Variables (Image KeyPoint : Type).
Variable pt : KeyPoint -> R * R.
Local Notation MM := (Scene R Image KeyPoint).
Variables (R_best : 'M[R]_3) (t_best : 'cV[R]_3) (K : 'M[R]_3).
Local Notation seed_points := (seed_points svd R_best t_best K).
Local Notation seed_mask :=
  (seed_mask svd projectPoints norm R_best t_best K).

Lemma size_seed_points a b : size a = size b -> size (seed_points a b) = size a.
Proof. by move=> h; rewrite size_map size_zip -h minnn. Qed.

Lemma size_seed_mask a b : size a = size b -> size (seed_mask a b) = size a.
Proof.
by move=> h; rewrite /seed_mask /mask_reproj !(size_map, size_zip) -h !minnn.
Qed.

Lemma nth_seed_mask a b i :
  size a = size b -> (i < size a)%N ->
  nth false (seed_mask a b) i =
    let p := nth 0 (seed_points a b) i in
    (norm (sub2 (projectPoints R_best t_best K p) (nth 0 b i)) < 5%:R)
    && (norm (sub2 (projectPoints 1%:M 0 K p) (nth 0 a i)) < 5%:R).
Proof.
move=> h hi; have hp := size_seed_points h.
rewrite /seed_mask /mask_reproj.
set z := zip _ _.
have hz : size z = size a.
  by rewrite /z !(size_map, size_zip) -h !minnn.
rewrite (nth_map (0, 0, (0, 0))) ?hz //= /z !nth_zip ?size_zip ?size_map ?hp -?h //=;
  rewrite ?size_zip -?h ?minnn //.
by rewrite !(nth_map 0) ?hp // size_zip -h minnn.
Qed.

Lemma two_view_seed_fits (mm : MM) mpts01o mpts10o vis ps :
  aligned2D pt SEED_LEFT SEED_RIGHT mm = (Ok (mpts01o, mpts10o), mm) ->
  (1 < size mpts01o)%N ->
  point3d_camera_visibility mm = Some vis -> (SEED_RIGHT < size vis)%N ->
  poses mm = Some ps -> (SEED_RIGHT < size ps)%N ->
  let map0 := odflt [::] (map_3d mm) in
  let keep := seed_mask mpts01o mpts10o in
  (size map0 + count id keep <= size (nth [::] vis SEED_LEFT))%N ->
  (size map0 + count id keep <= size (nth [::] vis SEED_RIGHT))%N ->
  exists2 ms, dict_get (matches mm) SEED_LEFT SEED_RIGHT = Ok ms &
  two_view_seed svd projectPoints norm pt R_best t_best K mm =
    Ok (set_poses
          (Some (set_row (set_row ps SEED_LEFT (row_mx 1%:M 0))
                        SEED_RIGHT (row_mx R_best t_best)))
       (set_map_3d (Some (map0 ++ mask keep (seed_points mpts01o mpts10o)))
       (set_visibility
          (Some (set_row
                   (set_row vis SEED_LEFT
                      (write_cols (nth [::] vis SEED_LEFT) (size map0)
                         [seq Posz (queryIdx d) | d <- mask keep ms]))
                   SEED_RIGHT
                   (write_cols (nth [::] vis SEED_RIGHT) (size map0)
                      [seq Posz (trainIdx d) | d <- mask keep ms]))) mm))).
Proof.
move=> hal hn hv hrv hp hrp map0 keep hfl hfr.
have [ms [hd ha hb hpos]] := aligned2D_inv hal.
have hab : size mpts01o = size mpts10o by rewrite ha hb.
exists ms => //.
rewrite /two_view_seed hal /triangulatePoints hab leqnn /=.
rewrite -/(seed_points mpts01o mpts10o) size_seed_points //.
rewrite (gtn_eqF hn) -/(seed_mask mpts01o mpts10o) -/keep.
have hlv : (SEED_LEFT < size vis)%N by exact: ltn_trans hrv.
have hlp : (SEED_LEFT < size ps)%N by exact: ltn_trans hrp.
rewrite /bind (addNewPoints3D_fits hv hd) ?size_seed_points ?size_seed_mask //.
rewrite /set_pose /bind /get /lift /modify /= hp /= /Np.setitem hlp /=.
by rewrite size_set_row ?hrp.
Qed.
End SeedFacts.

Section SeedClaims.
Variable R : realFieldType.
Local Open Scope ring_scope.
Variable svd :
  forall m n : nat, 'M[R]_(m, n) -> 'M[R]_m * 'rV[R]_(minn m n) * 'M[R]_n.
Variable projectPoints : 'M[R]_3 -> 'cV[R]_3 -> 'M[R]_3 -> 'rV[R]_3 -> R * R.
Variable norm : R * R -> R.
Variables (Image KeyPoint : Type).
Variable pt : KeyPoint -> R * R.
Local Notation MM := (Scene R Image KeyPoint).
Variables (R_best : 'M[R]_3) (t_best : 'cV[R]_3) (K : 'M[R]_3).

Lemma two_view_seed_overflow (mm : MM) mpts01o mpts10o vis :
  aligned2D pt SEED_LEFT SEED_RIGHT mm = (Ok (mpts01o, mpts10o), mm) ->
  point3d_camera_visibility mm = Some vis -> (SEED_RIGHT < size vis)%N ->
  let map0 := odflt [::] (map_3d mm) in
  let keep := seed_mask svd projectPoints norm R_best t_best K
                mpts01o mpts10o in
  (size (nth [::] vis SEED_LEFT) < size map0 + count id keep)%N ->
  (1 < count id keep)%N ->
  two_view_seed svd projectPoints norm pt R_best t_best K mm
  = Raise ValueError.
Proof.
move=> hal hv hrv map0 keep hover hk2.
have [ms [hd ha hb hpos]] := aligned2D_inv hal.
have hab : size mpts01o = size mpts10o by rewrite ha hb.
have hn : (1 < size mpts01o)%N.
  apply: leq_trans hk2 _; rewrite -(size_seed_mask svd projectPoints norm R_best t_best K hab).
  exact: count_size.
rewrite /two_view_seed hal /triangulatePoints hab leqnn /=.
rewrite -/(seed_points svd R_best t_best K mpts01o mpts10o) size_seed_points //.
rewrite (gtn_eqF hn) -/(seed_mask svd projectPoints norm R_best t_best K mpts01o mpts10o) -/keep.
have hlv : (SEED_LEFT < size vis)%N by exact: ltn_trans hrv.
have [] := @addNewPoints3D_overflow _ _ _ _ mm
             (seed_points svd R_best t_best K mpts01o mpts10o)
             SEED_LEFT SEED_RIGHT keep vis ms hv hd _ _ hpos hlv hover hk2;
  rewrite ?size_seed_points ?size_seed_mask //.
by rewrite /bind; case: addNewPoints3D => [[u|e] s] //= [->].
Qed.

(** C6 (amended), two-view seeding, lines 766-784, with [addNewPoints3D],
    lines 163-174: when the seed pair has at least two correspondences and
    the points kept fit the 500 columns of the visibility array, the
    seeding returns; a triangulated point is kept exactly when its
    reprojection error is below 5 in both views; the points kept are
    appended to the map in order, with the indices of their two keypoints
    as visibility entries of cameras 3 and 7; and the pose of camera 3 is
    [[1|0]], that of camera 7 [[R_best|t_best]]. *)
Theorem C6_seed_keeps_small_errors (mm : MM) mpts01o mpts10o vis ps :
  aligned2D pt SEED_LEFT SEED_RIGHT mm = (Ok (mpts01o, mpts10o), mm) ->
  (1 < size mpts01o)%N ->
  point3d_camera_visibility mm = Some vis -> (SEED_RIGHT < size vis)%N ->
  size (nth [::] vis SEED_LEFT) = VIS_COLS ->
  size (nth [::] vis SEED_RIGHT) = VIS_COLS ->
  poses mm = Some ps -> (SEED_RIGHT < size ps)%N ->
  let pts3d := seed_points svd R_best t_best K mpts01o mpts10o in
  let keep := seed_mask svd projectPoints norm R_best t_best K
                mpts01o mpts10o in
  let map0 := odflt [::] (map_3d mm) in
  (size map0 + count id keep <= VIS_COLS)%N ->
  exists mm' ms vis' ps',
    [/\ two_view_seed svd projectPoints norm pt R_best t_best K mm = Ok mm',
        forall i, (i < size pts3d)%N ->
          nth false keep i =
            (norm (sub2 (projectPoints R_best t_best K (nth 0 pts3d i))
                        (nth 0 mpts10o i)) < 5%:R)
            && (norm (sub2 (projectPoints 1%:M 0 K (nth 0 pts3d i))
                           (nth 0 mpts01o i)) < 5%:R),
        map_3d mm' = Some (map0 ++ mask keep pts3d),
        [/\ dict_get (matches mm) SEED_LEFT SEED_RIGHT = Ok ms,
            point3d_camera_visibility mm' = Some vis' &
            forall p, (p < count id keep)%N ->
              nth 0 (nth [::] vis' SEED_LEFT) (size map0 + p)
                = Posz (queryIdx (nth (mkDMatch 0 0) (mask keep ms) p)) /\
              nth 0 (nth [::] vis' SEED_RIGHT) (size map0 + p)
                = Posz (trainIdx (nth (mkDMatch 0 0) (mask keep ms) p))]
      & [/\ poses mm' = Some ps',
            nth 0 ps' SEED_LEFT = row_mx 1%:M 0 &
            nth 0 ps' SEED_RIGHT = row_mx R_best t_best]].
Proof.
move=> hal hn hv hrv hrl hrr hp hrp pts3d keep map0 hfit.
have [ms [hd ha hb hpos]] := aligned2D_inv hal.
have hab : size mpts01o = size mpts10o by rewrite ha hb.
have := @two_view_seed_fits _ svd projectPoints norm _ _ pt
          R_best t_best K mm _ _ _ _ hal hn hv hrv hp hrp.
rewrite /= hrl hrr => /(_ hfit hfit) [ms' hd' ->].
have hlv : (SEED_LEFT < size vis)%N by exact: ltn_trans hrv.
have hlp : (SEED_LEFT < size ps)%N by exact: ltn_trans hrp.
move: hd'; rewrite hd => -[<-].
have hkept : size (mask keep ms) = count id keep.
  by rewrite size_mask // size_seed_mask // ha.
do 4!eexists; split; first by [].
- move=> i; rewrite size_seed_points // => hi.
  exact: nth_seed_mask.
- by [].
- split=> //= p hp'.
  rewrite nth_set_row ?size_set_row //= nth_set_row //=.
  rewrite nth_set_row ?size_set_row //=.
  rewrite !nth_write_cols ?size_map ?hkept ?hrl ?hrr //.
  rewrite leq_addr ltn_add2l hp' addKn /=.
  by rewrite !(nth_map (mkDMatch 0 0)) ?hkept.
- split=> //=.
    by rewrite nth_set_row ?size_set_row //= nth_set_row.
  by rewrite nth_set_row ?size_set_row.
Qed.
End SeedClaims.

Section SeedScenes.
Local Open Scope ring_scope.
Local Open Scope st_scope.

Lemma pair_aligned :
  aligned2D id SEED_LEFT SEED_RIGHT pair_scene
  = (Ok ([:: (0, 0); (10%:R, 0)], [:: (0, 0); (10%:R, 0)]), pair_scene).
Proof. by vm_compute. Qed.

Lemma pair_visibility :
  point3d_camera_visibility pair_scene = Some (nseq 8 (nseq VIS_COLS (-1))).
Proof. by vm_compute. Qed.

Lemma pair_poses : poses pair_scene = Some (nseq 8 0).
Proof. by []. Qed.

Lemma crowd_aligned :
  aligned2D id SEED_LEFT SEED_RIGHT crowd_scene
  = (Ok (nseq 501 (0, 0), nseq 501 (0, 0)), crowd_scene).
Proof. by vm_compute. Qed.

Lemma crowd_visibility :
  point3d_camera_visibility crowd_scene = Some (nseq 8 (nseq VIS_COLS (-1))).
Proof. by vm_compute. Qed.

End SeedScenes.

Section SeedWitness.
Local Open Scope ring_scope.

Lemma pair_mask :
  seed_mask (@svd_id rat) (@project_origin rat) (@norm1 rat) 1%:M 0 1%:M
    [:: (0, 0); (10%:R, 0)] [:: (0, 0); (10%:R, 0)] = [:: true; false].
Proof. by vm_compute. Qed.

Lemma crowd_mask :
  seed_mask (@svd_id rat) (@project_origin rat) (@norm1 rat) 1%:M 0 1%:M
    (nseq 501 (0, 0)) (nseq 501 (0, 0)) = nseq 501 true.
Proof. by vm_compute. Qed.

(** C6, where the claim as stated fails: with 501 correspondences whose
    reprojection errors all are below 5, no point is appended: the seeding
    raises ValueError. *)
Lemma C6_crowd_not_appended :
  [/\ aligned2D id SEED_LEFT SEED_RIGHT crowd_scene
        = (Ok (nseq 501 (0, 0), nseq 501 (0, 0)), crowd_scene),
      seed_mask (@svd_id rat) (@project_origin rat) (@norm1 rat) 1%:M 0 1%:M
        (nseq 501 (0, 0)) (nseq 501 (0, 0)) = nseq 501 true
    & two_view_seed (@svd_id rat) (@project_origin rat) (@norm1 rat) id
        1%:M 0 1%:M crowd_scene = Raise ValueError].
Proof.
split; [exact: crowd_aligned | exact: crowd_mask | ].
apply: (two_view_seed_overflow crowd_aligned crowd_visibility).
- by [].
- by rewrite crowd_mask.
- by rewrite crowd_mask.
Qed.

(** C6, an instance: two correspondences, of which the first one has a
    small error in both views. *)
Lemma C6_witness :
  exists mm',
    two_view_seed (@svd_id rat) (@project_origin rat) (@norm1 rat) id
      1%:M 0 1%:M pair_scene = Ok mm'
    /\ omap size (map_3d mm') = Some 1%N.
Proof.
have [] := @C6_seed_keeps_small_errors rat (@svd_id rat) (@project_origin rat)
             (@norm1 rat) nat (rat * rat)%type id 1%:M 0 1%:M pair_scene
             _ _ _ _ pair_aligned isT pair_visibility isT
             (erefl _) (erefl _) pair_poses isT.
  by rewrite pair_mask.
move=> mm' [ms [vis' [ps' [h1 _ h3 _ _]]]].
exists mm'; split; [exact: h1 | rewrite h3 pair_mask; reflexivity].
Defined.

End SeedWitness.

Section RansacClaims.
Variable R : realFieldType.
Local Open Scope ring_scope.
Variable svd :
  forall m n : nat, 'M[R]_(m, n) -> 'M[R]_m * 'rV[R]_(minn m n) * 'M[R]_n.


(** C7, RANSAC loop, lines 411-443: on correspondence arrays of equal
    length, an iteration whose sample model has no inlier raises no
    exception and leaves the best count, mask, model and error as they
    were. *)
Theorem C7_empty_inlier_set_discarded
    (mpts01f mpts10f : seq 'rV[R]_3) (idx : seq nat) (st : ransac_state R)
    (inliers : seq bool) :
  size mpts01f = size mpts10f ->
  sample_inliers svd mpts01f mpts10f idx = Ok inliers ->
  count id inliers = 0%N ->
  ransac_iter svd mpts01f mpts10f idx st = Ok st.
Proof. exact: ransac_iter_empty. Qed.

End RansacClaims.

Section Instances.
Local Open Scope ring_scope.



(** C7, an instance: a sample model without inliers in the first
    iteration. *)
Lemma C7_witness :
  ransac_iter (svd_oracle 0) centred centred (iota 0 9) (ransac_init rat)
  = Ok (ransac_init rat).
Proof.
have hs : sample_inliers (svd_oracle 0) centred centred (iota 0 9)
          = Ok (nseq 16 false) by exact: (@sample_inliers_centre rat 0 16 isT).
exact: (@C7_empty_inlier_set_discarded rat (svd_oracle 0) centred centred
          (iota 0 9) (ransac_init rat) (nseq 16 false) (erefl _) hs (erefl _)).
Defined.

Lemma svd_id_orthogonal m n (A : 'M[rat]_(m, n)) :
  orthogonal_mx (svd_U (@svd_id rat) A) /\
  orthogonal_mx (svd_VT (@svd_id rat) A).
Proof. by split; rewrite /orthogonal_mx /svd_U /svd_VT /= trmx1 mulmx1. Qed.

(** C3, where the claim as stated fails: seven correspondences are
    accepted and a matrix is returned. *)
Lemma C3_seven_pairs_accepted :
  size (nseq 7 (centre rat)) = 7%N /\
  calculateEssentialMatrix (@svd_id rat) (nseq 7 (centre rat))
    (nseq 7 (centre rat)) = Ok (Sigma rat).
Proof.
split=> //; rewrite calculateEssentialMatrix_ok ?size_nseq //.
by rewrite /svd_U /svd_VT /= mul1mx mulmx1.
Qed.

(** C3, an instance: seven correspondences. *)
Lemma C3_witness :
  exists E, calculateEssentialMatrix (@svd_id rat) (nseq 7 (centre rat))
              (nseq 7 (centre rat)) = Ok E.
Proof.
have [E [h _]] := @C3_no_insufficiency_check rat (@svd_id rat)
                    (nseq 7 (centre rat)) (nseq 7 (centre rat)) isT.
by exists E.
Defined.

(** C4, an instance: the decomposition of [diag(1,1,0)]. *)
Lemma C4_witness :
  size (decompose_essential (@svd_id rat) (Sigma rat)).1 = 2%N.
Proof.
have := @C4_two_rotations rat (@svd_id rat) (Sigma rat)
          (svd_id_orthogonal _).1 (svd_id_orthogonal _).2.
by rewrite /decompose_essential => -[h _ _ _]; exact: h.
Defined.

(** C5, an instance: sixteen correspondences at the principal point. *)
Lemma C5_witness :
  exists E, calculateEssentialMatrix (@svd_id rat) centred centred = Ok E
            /\ \rank E = 2%N.
Proof.
have [E [h _ hr _]] := @C5_rank_two rat (@svd_id rat) centred centred isT
                         (svd_id_orthogonal _).1 (svd_id_orthogonal _).2.
by exists E.
Defined.

End Instances.

Section SceneInstances.

(** C9, an instance: 500 points appended to the empty map, and 500 more
    to the map then full. *)
Lemma C9_witness :
  let out := addNewPoints3D (iota 0 500) 0 1 (Some (nseq 500 true))
               full_start in
  let out' := addNewPoints3D (iota 0 500) 0 1 (Some (nseq 500 true))
                full_map in
  [/\ out.1 = Ok tt, omap size (map_3d out.2) = Some 500 &
      out'.1 = Raise ValueError].
Proof.
have hv : point3d_camera_visibility full_start
          = Some (nseq 2 (nseq VIS_COLS (-1)%R)) by vm_compute.
have hd : dict_get (matches full_start) 0 1
          = Ok [seq mkDMatch q q | q <- iota 0 500] by vm_compute.
have hv' : point3d_camera_visibility full_map
           = Some [:: [seq Posz q | q <- iota 0 500];
                      [seq Posz q | q <- iota 0 500]] by vm_compute.
have hd' : dict_get (matches full_map) 0 1
          = Ok [seq mkDMatch q q | q <- iota 0 500] by vm_compute.
have [_ _ h _] := @C9_visibility_capacity nat nat nat unit full_start
  (iota 0 500) 0 1 (nseq 500 true) _ _ hv hd (erefl _) (erefl _) isT isT isT
  isT (erefl _) (erefl _).
have [_ _ _ h'] := @C9_visibility_capacity nat nat nat unit full_map
  (iota 0 500) 0 1 (nseq 500 true) _ _ hv' hd' (erefl _) (erefl _) isT isT isT
  isT (erefl _) (erefl _).
have hm : omap size (map_3d full_map) = Some 500 by vm_compute.
have hm0 : map_3d full_start = None by vm_compute.
move=> out out'.
have hfit : size (odflt [::] (map_3d full_start))
                  + count id (nseq 500 true) <= VIS_COLS by vm_compute.
have [h1 h2 _] := h hfit.
have hover : VIS_COLS < size (odflt [::] (map_3d full_map))
                            + count id (nseq 500 true) by vm_compute.
have hk : 1 < count id (nseq 500 true) by vm_compute.
have [h3 _ _] := h' hover hk.
split; [exact: h1 | | exact: h3].
by rewrite /out h2 hm0; vm_compute.
Defined.

End SceneInstances.
